(** * nbdatagen / nbhdf5 / generatePredicatesOptional.py

    A shallow embedding of [generate_knn_dataset] and the properties of the
    data set it writes.

    Conventions of the model.
    - The sizes [n], [p], [x] are natural numbers.
    - NumPy's global random generator is a stream of raw draws [bits]
      together with a read position; every random primitive consumes draws
      in program order (a state monad), and an uncaught Python exception
      ends the run (an error monad on top of it).
    - A float is the rational number it denotes.  The draws of
      [np.random.rand] are the float64 values [k / 2^53], and the cast to
      float32 rounds to a 24-bit significand, ties to even.
    - Distances are exact: [torch.cdist] is the Euclidean distance of the
      rational vectors, and [torch.topk] a stable selection by distance.
    - Tensor and array indices are integers ([Z]); the cast of the
      neighbour rows to int32 wraps modulo [2^32]. *)

From Stdlib Require Import Ascii String ZArith QArith Qround List Bool Arith Lia.
From Stdlib Require Import Permutation Sorted FinFun.
From Stdlib Require Import Reals Qreals Lra.
Import ListNotations.

Local Open Scope nat_scope.

(** ** Exceptions that end a run *)

Inductive exn : Type :=
| ValueError_choice_empty      (* np.random.choice on an empty population *)
| ValueError_choice_too_large  (* sample larger than population, replace=False *)
| IndexError_mask_shape        (* boolean mask does not match the tensor *)
| RuntimeError_topk_range      (* torch.topk: k exceeds the dimension *)
| TypeError_none_subscript.    (* indexing None *)

Definition result (A : Type) : Type := (exn + A)%type.

Definition res_bind {A B : Type} (r : result A) (f : A -> result B) : result B :=
  match r with
  | inl e => inl e
  | inr a => f a
  end.

(** ** The random-state monad *)

Definition M (A : Type) : Type := nat -> result (A * nat).

Definition ret {A : Type} (a : A) : M A := fun s => inr (a, s).

Definition bind {A B : Type} (m : M A) (f : A -> M B) : M B :=
  fun s => match m s with
           | inl e => inl e
           | inr (a, s') => f a s'
           end.

Definition raise {A : Type} (e : exn) : M A := fun _ => inl e.

Definition lift {A : Type} (r : result A) : M A :=
  fun s => match r with
           | inl e => inl e
           | inr a => inr (a, s)
           end.

Declare Scope rng_scope.
Delimit Scope rng_scope with rng.
Notation "x <- m ;; k" := (bind m (fun x => k))
  (at level 61, m at next level, right associativity) : rng_scope.

(** [for _ in range(k): acc.append(body)] *)
Fixpoint replicateM {A : Type} (k : nat) (m : M A) : M (list A) :=
  match k with
  | O => ret []
  | S k' => bind m (fun a => bind (replicateM k' m) (fun l => ret (a :: l)))
  end.

(** ** Floats *)

(** [two53] is the denominator of every float the program draws. *)
Definition two53 : positive := 9007199254740992.

(** [astype(np.float32)] on a non-negative numerator [k] over [2^53]:
    keep the 24 leading bits, round to nearest, ties to even. *)
Definition round_sig24 (k : Z) : Z :=
  let b := (Z.log2 k + 1)%Z in
  if (b <=? 24)%Z then k
  else
    let s := (b - 24)%Z in
    let q := Z.shiftr k s in
    let r := Z.land k (Z.ones s) in
    let half := Z.shiftl 1 (s - 1) in
    let q' := if (half <? r)%Z || ((r =? half)%Z && Z.odd q)
              then (q + 1)%Z else q in
    Z.shiftl q' s.

(** The cast of a float64 [d] of [random_sample], a multiple of [2^-53]
    in [0,1). *)
Definition astype_float32 (d : Q) : Q :=
  Qmake (round_sig24 (Qfloor (d * inject_Z (Zpos two53)))) two53.

(** A number is a float32 when it is [m * 2^e] with a 24-bit [m]; here the
    exponent is counted from [2^-53]. *)
Definition is_float32 (v : Q) : Prop :=
  exists m e : Z,
    (0 <= m < 2 ^ 24)%Z /\ (0 <= e)%Z /\ v == Qmake (m * 2 ^ e) two53.

(** ** Array helpers *)

(** [np.arange(lo, hi)] *)
Definition np_arange (lo hi : Z) : list Z :=
  map (fun i => (lo + Z.of_nat i)%Z) (seq 0 (Z.to_nat (hi - lo))).

(** [np.repeat(a, k)] *)
Definition np_repeat (a : list Z) (k : nat) : list Z :=
  flat_map (fun v => repeat v k) a.

(** [np.isin(a, b)] *)
Definition np_isin (a b : list Z) : list bool :=
  map (fun v => existsb (Z.eqb v) b) a.

(** [np.full(k, v)] *)
Definition np_full (k : nat) (v : Z) : list Z := repeat v k.

(** [l] without its [j]-th entry. *)
Definition remove_nth {A : Type} (j : nat) (l : list A) : list A :=
  firstn j l ++ skipn (S j) l.

Section RandomState.

(** The raw output of the generator, in the order it is consumed. *)
Variable bits : nat -> Z.

Local Open Scope rng_scope.

Definition next : M Z := fun s => inr (bits s, S s).

(** One float64 of [random_sample]: 53 random bits over [2^53]. *)
Definition random_sample : M Q :=
  r <- next ;; ret (Qmake (r mod Zpos two53) two53).

(** [np.random.rand(rows, cols).astype(np.float32)] *)
Definition np_random_rand_f32 (rows cols : nat) : M (list (list Q)) :=
  replicateM rows
    (replicateM cols (d <- random_sample ;; ret (astype_float32 d))).

(** [np.random.randint(lo, hi)]: uniform on [lo, hi). *)
Definition np_random_randint (lo hi : Z) : M Z :=
  r <- next ;; ret (lo + r mod (hi - lo))%Z.

(** [size] successive draws from what is left of [pool]: the selection
    [permutation(len(a))[:size]] of [np.random.choice(a, size,
    replace=False)]. *)
Fixpoint draw_distinct (size : nat) (pool : list Z) : M (list Z) :=
  match size with
  | O => ret []
  | S size' =>
      r <- next ;;
      let j := Z.to_nat (r mod Z.of_nat (length pool)) in
      rest <- draw_distinct size' (remove_nth j pool) ;;
      ret (nth j pool 0%Z :: rest)
  end.

(** [np.random.choice(a, size=size, replace=False)] with [size >= 1]
    as the program calls it. *)
Definition np_random_choice (a : list Z) (size : nat) : M (list Z) :=
  if (length a =? 0) && negb (size =? 0) then raise ValueError_choice_empty
  else if length a <? size then raise ValueError_choice_too_large
  else draw_distinct size a.

End RandomState.

(** ** Exact nearest neighbours *)

(** The square of the Euclidean distance, exact on rationals. *)
Fixpoint sq_dist (u v : list Q) : Q :=
  match u, v with
  | a :: u', b :: v' => (a - b) * (a - b) + sq_dist u' v'
  | _, _ => 0
  end.

(** The Euclidean distance itself. *)
Definition euclid (u v : list Q) : R := sqrt (Q2R (sq_dist u v)).

(** [torch.cdist(query.unsqueeze(0), data).squeeze(0)].  A distance is
    carried as its square: the selection below only compares distances,
    and squaring preserves the order of non-negative numbers (lemma
    [euclid_le_iff]). *)
Definition torch_cdist (query : list Q) (data : list (list Q)) : list Q :=
  map (sq_dist query) data.

(** Stable insertion of an (index, distance) pair by distance. *)
Fixpoint insert_by_distance (e : nat * Q) (l : list (nat * Q)) : list (nat * Q) :=
  match l with
  | [] => [e]
  | h :: t =>
      if Qle_bool (snd e) (snd h) then e :: l
      else h :: insert_by_distance e t
  end.

Definition sort_by_distance (l : list (nat * Q)) : list (nat * Q) :=
  fold_right insert_by_distance [] l.

(** [torch.topk(distances, k=k, largest=False).indices]: the positions of
    the [k] smallest entries, smallest first. *)
Definition torch_topk (distances : list Q) (k : nat) : result (list nat) :=
  if length distances <? k then inl RuntimeError_topk_range
  else
    inr (map fst
           (firstn k
              (sort_by_distance
                 (combine (seq 0 (length distances)) distances)))).

(** [t[mask]] for a boolean mask over the first dimension. *)
Definition mask_select {A : Type} (mask : list bool) (t : list A) : result (list A) :=
  if length mask =? length t
  then inr (map snd (filter fst (combine mask t)))
  else inl IndexError_mask_shape.

(** [torch.where(mask)[0]] *)
Definition torch_where (mask : list bool) : list Z :=
  map Z.of_nat (filter (fun i => nth i mask false) (seq 0 (length mask))).

(** [a[idx]] for an index tensor [idx]. *)
Definition index_select (a : list Z) (idx : list nat) : list Z :=
  map (fun j => nth j a 0%Z) idx.

(** The number of neighbours asked of [topk], and the placeholder. *)
Definition K : nat := 100.
Definition sentinel : Z := (-1)%Z.

(** Lines 27-34 of one iteration: the values given to
    [filtered_train_data] and [global_indices]. *)
Definition eligible (use_predicates : bool) (n : nat)
    (train_tensor : list (list Q))
    (train_ids : option (list Z)) (test_ids : option (list (list Z)))
    (i : nat) : result (list (list Q) * list Z) :=
  if use_predicates then
    match train_ids, test_ids with
    | Some train_ids, Some test_ids =>
        let query_ids := nth i test_ids [] in
        let mask := np_isin train_ids query_ids in
        res_bind (mask_select mask train_tensor) (fun filtered_train_data =>
        inr (filtered_train_data, torch_where mask))
    | _, _ => inl TypeError_none_subscript
    end
  else inr (train_tensor, np_arange 0 (Z.of_nat n)).

(** One iteration of the loop of step 3; the value is what the iteration
    appends to [neighbors_list].  Lines 36-45, the test on
    [filtered_train_data] and both of its branches, are indented under the
    [else] of line 32: with predicates the iteration appends nothing. *)
Definition knn_query (use_predicates : bool) (n : nat)
    (train_tensor : list (list Q))
    (train_ids : option (list Z)) (test_ids : option (list (list Z)))
    (test_data : list (list Q)) (i : nat) : result (list (list Z)) :=
  let query_vector := nth i test_data [] in
  res_bind (eligible use_predicates n train_tensor train_ids test_ids i)
    (fun '(filtered_train_data, global_indices) =>
  if use_predicates then inr []
  else
    if 0 <? length filtered_train_data then
      let distances := torch_cdist query_vector filtered_train_data in
      res_bind (torch_topk distances K) (fun knn_indices =>
      let global_knn_indices := index_select global_indices knn_indices in
      inr [global_knn_indices])
    else
      inr [np_full K sentinel]).

(** [for i in range(x): ...] accumulating [neighbors_list]. *)
Fixpoint knn_loop (body : nat -> result (list (list Z))) (queries : list nat)
  : result (list (list Z)) :=
  match queries with
  | [] => inr []
  | i :: rest =>
      res_bind (body i) (fun appended =>
      res_bind (knn_loop body rest) (fun later =>
      inr (appended ++ later)))
  end.

(** ** The output file *)

Inductive h5_dtype : Type := H5_float32 | H5_int32 | H5_int64 | H5_vlen_int32.

Inductive payload : Type :=
| FloatCells (cells : list (list Q))
| IntCells (cells : list (list Z))
| IntVector (cells : list Z)
| VlenCells (cells : list (list Z)).   (* one variable-length array per entry *)

Record dataset : Type := {
  ds_name : string;
  ds_dtype : h5_dtype;
  ds_shape : list nat;
  ds_payload : payload
}.

(** The cast of one integer to int32. *)
Definition astype_int32 (v : Z) : Z :=
  ((v + 2 ^ 31) mod 2 ^ 32 - 2 ^ 31)%Z.

(** The shape of [np.array(rows)] for rows of one length. *)
Definition np_array_shape {A : Type} (rows : list (list A)) : list nat :=
  match rows with
  | [] => [0]
  | r :: _ => [length rows; length r]
  end.

(** The values of the locals when the function returns, and the data sets
    created in the file, in creation order. *)
Record run : Type := {
  train_data : list (list Q);
  test_data : list (list Q);
  train_ids : option (list Z);
  test_ids : option (list (list Z));
  neighbors_list : list (list Z);
  output_path : string;
  h5f : list dataset
}.

Section Generator.

Variable bits : nat -> Z.

Local Open Scope rng_scope.

(** The body of the loop that fills [test_ids]. *)
Definition draw_query_ids (n : nat) : M (list Z) :=
  num_ids <- np_random_randint bits 1 6 ;;
  np_random_choice bits (np_arange 1 (Z.of_nat (n / 100) + 1))
    (Z.to_nat num_ids).

(** Step 2, the [if use_predicates] block. *)
Definition assign_ids (n x : nat) (use_predicates : bool)
  : M (option (list Z) * option (list (list Z))) :=
  if use_predicates then
    let train_ids := np_repeat (np_arange 1 (Z.of_nat (n / 100) + 1)) 100 in
    test_ids <- replicateM x (draw_query_ids n) ;;
    ret (Some train_ids, Some test_ids)
  else ret (None, None).

(** Step 4: the [create_dataset] calls, each with its name, element type,
    shape and data.  [np.array(neighbors_list, dtype=np.int32)] casts every
    index; [np.array(test_ids, dtype=object)] is taken as one cell per
    query, each cell the array drawn for that query. *)
Definition write_h5 (n p x : nat) (use_predicates : bool)
    (train test : list (list Q))
    (train_ids : option (list Z)) (test_ids : option (list (list Z)))
    (neighbors : list (list Z)) : list dataset :=
  [ {| ds_name := "train"; ds_dtype := H5_float32;
       ds_shape := [n; p]; ds_payload := FloatCells train |};
    {| ds_name := "test"; ds_dtype := H5_float32;
       ds_shape := [x; p]; ds_payload := FloatCells test |};
    {| ds_name := "neighbors"; ds_dtype := H5_int32;
       ds_shape := np_array_shape neighbors;
       ds_payload := IntCells (map (map astype_int32) neighbors) |} ]
  ++
  (if use_predicates then
     match train_ids, test_ids with
     | Some tr, Some te =>
         [ {| ds_name := "train_ids"; ds_dtype := H5_int64;
              ds_shape := [length tr]; ds_payload := IntVector tr |};
           {| ds_name := "test_ids"; ds_dtype := H5_vlen_int32;
              ds_shape := [length te];
              ds_payload := VlenCells (map (map astype_int32) te) |} ]
     | _, _ => []
     end
   else []).

Definition generate_knn_dataset (n p x : nat) (output_file : string)
    (use_predicates : bool) : M run :=
  train <- np_random_rand_f32 bits n p ;;
  test <- np_random_rand_f32 bits x p ;;
  ids <- assign_ids n x use_predicates ;;
  neighbors <-
    lift (knn_loop (knn_query use_predicates n train (fst ids) (snd ids) test)
            (seq 0 x)) ;;
  ret {| train_data := train; test_data := test;
         train_ids := fst ids; test_ids := snd ids;
         neighbors_list := neighbors;
         output_path := output_file;
         h5f := write_h5 n p x use_predicates train test
                  (fst ids) (snd ids) neighbors |}.

End Generator.

(** The data set of a file by name. *)
Definition dataset_named (name : string) (f : list dataset) : option dataset :=
  find (fun d => String.eqb (ds_name d) name) f.

(** ** The prompt for the predicate flag (line 65)

    An answer is a string of code points below 256. *)

(** [str.isspace] on one character. *)
Definition is_space (c : ascii) : bool :=
  let k := nat_of_ascii c in
  ((9 <=? k) && (k <=? 13)) || ((28 <=? k) && (k <=? 32))
  || (k =? 133) || (k =? 160).

(** [str.lower] on one character: A-Z and the Latin-1 capitals. *)
Definition to_lower (c : ascii) : ascii :=
  let k := nat_of_ascii c in
  if ((65 <=? k) && (k <=? 90))
     || ((192 <=? k) && (k <=? 222) && negb (k =? 215))
  then ascii_of_nat (k + 32) else c.

Fixpoint lstrip (s : string) : string :=
  match s with
  | EmptyString => EmptyString
  | String c s' => if is_space c then lstrip s' else s
  end.

Fixpoint rstrip (s : string) : string :=
  match s with
  | EmptyString => EmptyString
  | String c s' =>
      match rstrip s' with
      | EmptyString => if is_space c then EmptyString else String c EmptyString
      | t => String c t
      end
  end.

(** [s.strip()] *)
Definition str_strip (s : string) : string := rstrip (lstrip s).

(** [s.lower()] *)
Fixpoint str_lower (s : string) : string :=
  match s with
  | EmptyString => EmptyString
  | String c s' => String (to_lower c) (str_lower s')
  end.

(** [input(...).strip().lower() == 'y'] *)
Definition read_use_predicates (answer : string) : bool :=
  String.eqb (str_lower (str_strip answer)) "y".

(** A string of whitespace only. *)
Fixpoint all_space (s : string) : bool :=
  match s with
  | EmptyString => true
  | String c s' => is_space c && all_space s'
  end.

(** ** Vocabulary of the statements *)

(** [m] is a [rows] x [cols] matrix. *)
Definition has_shape {A : Type} (m : list (list A)) (rows cols : nat) : Prop :=
  length m = rows /\ Forall (fun r => length r = cols) m.

(** Every entry of [m] satisfies [P]. *)
Definition entries {A : Type} (P : A -> Prop) (m : list (list A)) : Prop :=
  Forall (Forall P) m.

Definition in_unit_half_open (v : Q) : Prop := (0 <= v /\ v < 1)%Q.
Definition in_unit_closed (v : Q) : Prop := (0 <= v /\ v <= 1)%Q.

(** The train vector at a global index. *)
Definition train_row (train : list (list Q)) (v : Z) : list Q :=
  nth (Z.to_nat v) train [].

(** [row] lists the [K] train vectors nearest to [query]: [K] distinct
    global indices below [n], by non-decreasing Euclidean distance, none
    farther from [query] than a train vector left out. *)
Definition nearest_row (n : nat) (train : list (list Q)) (query : list Q)
    (row : list Z) : Prop :=
  length row = K /\
  NoDup row /\
  Forall (fun v => (0 <= v < Z.of_nat n)%Z) row /\
  StronglySorted
    (fun a b => (euclid query (train_row train a)
                 <= euclid query (train_row train b))%R) row /\
  forall j, (0 <= j < Z.of_nat n)%Z -> ~ In j row ->
    Forall (fun v => (euclid query (train_row train v)
                      <= euclid query (train_row train j))%R) row.

(** The order of (index, distance) pairs used by the selection. *)
Definition dle (a b : nat * Q) : Prop := (snd a <= snd b)%Q.

(** * Proofs *)

(** ** The monad *)

Lemma replicateM_inv {A : Type} (P : A -> Prop) (m : M A) :
  (forall s a s', m s = inr (a, s') -> P a) ->
  forall k s l s',
    replicateM k m s = inr (l, s') -> length l = k /\ Forall P l.
Proof.
  intros Hm k; induction k as [|k IH]; intros s l s' H; simpl in H.
  - unfold ret in H. inversion H; subst. split; [reflexivity | constructor].
  - unfold bind in H.
    destruct (m s) as [e | [a s1]] eqn:Ea; [discriminate|].
    destruct (replicateM k m s1) as [e | [l1 s2]] eqn:El; [discriminate|].
    unfold ret in H. inversion H; subst.
    destruct (IH _ _ _ El) as [Hlen Hall].
    split; [simpl; congruence | constructor; eauto].
Qed.

Lemma replicateM_total {A : Type} (m : M A) :
  (forall s, exists a s', m s = inr (a, s')) ->
  forall k s, exists l s', replicateM k m s = inr (l, s').
Proof.
  intros Hm k; induction k as [|k IH]; intros s; simpl.
  - eexists _, _; reflexivity.
  - unfold bind. destruct (Hm s) as (a & s1 & Ea). rewrite Ea.
    destruct (IH s1) as (l & s2 & El). rewrite El.
    eexists _, _; reflexivity.
Qed.

(** ** The float32 cast *)

Lemma two53_pow : Zpos two53 = (2 ^ 53)%Z.
Proof. reflexivity. Qed.

Lemma round_sig24_float32 (k : Z) :
  (0 <= k < 2 ^ 53)%Z ->
  (0 <= round_sig24 k <= 2 ^ 53)%Z /\
  exists m e : Z, (0 <= m < 2 ^ 24)%Z /\ (0 <= e)%Z /\
                  round_sig24 k = (m * 2 ^ e)%Z.
Proof.
  intros [Hk0 Hk]. unfold round_sig24.
  destruct (Z.eq_dec k 0) as [-> | Hnz].
  { simpl. split; [lia|]. exists 0%Z, 0%Z. repeat split; lia. }
  assert (Hpos : (0 < k)%Z) by lia.
  pose proof (Z.log2_spec k Hpos) as [Hlo Hhi].
  pose proof (Z.log2_nonneg k) as Hl0.
  assert (Hl53 : (Z.log2 k < 53)%Z) by (apply Z.log2_lt_pow2; lia).
  replace (Z.succ (Z.log2 k)) with (Z.log2 k + 1)%Z in Hhi by lia.
  destruct (Z.leb_spec (Z.log2 k + 1) 24) as [Hb | Hb].
  - assert (2 ^ (Z.log2 k + 1) <= 2 ^ 24)%Z
      by (apply Z.pow_le_mono_r; lia).
    split; [lia|]. exists k, 0%Z. repeat split; try lia.
  - set (s := (Z.log2 k + 1 - 24)%Z).
    assert (Hs : (0 < s)%Z) by (unfold s; lia).
    assert (Hs29 : (s <= 29)%Z) by (unfold s; lia).
    rewrite Z.shiftr_div_pow2 by lia.
    set (q := (k / 2 ^ s)%Z).
    assert (H2s : (0 < 2 ^ s)%Z) by (apply Z.pow_pos_nonneg; lia).
    assert (Hsplit : (2 ^ (Z.log2 k + 1) = 2 ^ 24 * 2 ^ s)%Z).
    { rewrite <- Z.pow_add_r by lia. f_equal. unfold s. lia. }
    assert (Hsplit' : (2 ^ Z.log2 k = 2 ^ 23 * 2 ^ s)%Z).
    { rewrite <- Z.pow_add_r by lia. f_equal. unfold s. lia. }
    assert (Hq : (2 ^ 23 <= q < 2 ^ 24)%Z).
    { unfold q. split.
      - apply Z.div_le_lower_bound; lia.
      - apply Z.div_lt_upper_bound; lia. }
    assert (Htop : (2 ^ 24 * 2 ^ s <= 2 ^ 53)%Z).
    { rewrite <- Hsplit. apply Z.pow_le_mono_r; lia. }
    match goal with
    | |- context [if ?c then (q + 1)%Z else q] =>
        set (q' := if c then (q + 1)%Z else q)
    end.
    assert (Hq' : (2 ^ 23 <= q' <= 2 ^ 24)%Z)
      by (unfold q'; match goal with |- context [if ?c then _ else _] =>
                       destruct c end; lia).
    rewrite Z.shiftl_mul_pow2 by lia.
    split; [nia|].
    destruct (Z.eq_dec q' (2 ^ 24)) as [Heq | Hne].
    + exists (2 ^ 23)%Z, (s + 1)%Z. repeat split; try lia.
      rewrite Heq, Z.pow_add_r by lia. lia.
    + exists q', s. repeat split; lia.
Qed.

Lemma astype_float32_numerator (k : Z) :
  astype_float32 (Qmake k two53) = Qmake (round_sig24 k) two53.
Proof.
  unfold astype_float32. f_equal.
  unfold Qfloor, Qmult, inject_Z. cbn [Qnum Qden].
  rewrite Pos.mul_1_r, Z.div_mul by discriminate. reflexivity.
Qed.

Section RandomFacts.

Variable bits : nat -> Z.

Lemma random_sample_run (s : nat) :
  random_sample bits s = inr (Qmake (bits s mod Zpos two53) two53, S s).
Proof. reflexivity. Qed.

(** One entry of a generated matrix. *)
Lemma rand_entry_run (s : nat) :
  bind (random_sample bits) (fun d => ret (astype_float32 d)) s
  = inr (Qmake (round_sig24 (bits s mod Zpos two53)) two53, S s).
Proof.
  unfold bind. rewrite random_sample_run. unfold ret.
  now rewrite astype_float32_numerator.
Qed.

Lemma rand_entry_float32 (s : nat) (v : Q) (s' : nat) :
  bind (random_sample bits) (fun d => ret (astype_float32 d)) s = inr (v, s') ->
  is_float32 v /\ in_unit_closed v.
Proof.
  rewrite rand_entry_run. intros H. inversion H; subst. clear H.
  assert (Hk : (0 <= bits s mod Zpos two53 < 2 ^ 53)%Z).
  { rewrite <- two53_pow. apply Z.mod_pos_bound. reflexivity. }
  destruct (round_sig24_float32 _ Hk) as [[Hlo Hhi] (m & e & Hm & He & Heq)].
  split.
  - exists m, e. rewrite Heq. split; [lia | split; [lia | reflexivity]].
  - unfold in_unit_closed, Qle. cbn [Qnum Qden].
    set (v := round_sig24 _) in *. rewrite two53_pow. lia.
Qed.

Lemma np_random_rand_f32_total (rows cols s : nat) :
  exists m s', np_random_rand_f32 bits rows cols s = inr (m, s').
Proof.
  unfold np_random_rand_f32. apply replicateM_total.
  intros s1. apply replicateM_total.
  intros s2. rewrite rand_entry_run. eexists _, _; reflexivity.
Qed.

Lemma np_random_rand_f32_spec (rows cols s : nat) (m : list (list Q)) (s' : nat) :
  np_random_rand_f32 bits rows cols s = inr (m, s') ->
  has_shape m rows cols /\ entries is_float32 m /\ entries in_unit_closed m.
Proof.
  intros H. unfold np_random_rand_f32 in H.
  pose proof (replicateM_inv
    (fun r => length r = cols /\ Forall (fun v => is_float32 v /\ in_unit_closed v) r)
    (replicateM cols (bind (random_sample bits) (fun d => ret (astype_float32 d))))) as Hinv.
  destruct (Hinv) with (k := rows) (s := s) (l := m) (s' := s') as [Hlen Hall].
  - intros s1 r s2 Hr.
    apply (replicateM_inv (fun v => is_float32 v /\ in_unit_closed v)) in Hr; [exact Hr|].
    intros s3 v s4. apply rand_entry_float32.
  - exact H.
  - unfold has_shape, entries. rewrite Forall_forall in Hall.
    repeat split; [exact Hlen | | |]; rewrite Forall_forall; intros r Hr;
      destruct (Hall r Hr) as [Hc Hv]; [exact Hc | |];
      rewrite Forall_forall in Hv |- *; intros v Hv'; apply (Hv v Hv').
Qed.

End RandomFacts.

(** ** Ranges, repetition and sampling *)

Lemma np_arange_length (lo hi : Z) :
  length (np_arange lo hi) = Z.to_nat (hi - lo).
Proof. unfold np_arange. now rewrite length_map, length_seq. Qed.

Lemma np_arange_In (lo hi g : Z) :
  In g (np_arange lo hi) <-> (lo <= g < hi)%Z.
Proof.
  unfold np_arange. rewrite in_map_iff. split.
  - intros (i & <- & Hi). apply in_seq in Hi. lia.
  - intros Hg. exists (Z.to_nat (g - lo)). split; [lia|].
    apply in_seq. lia.
Qed.

Lemma np_arange_NoDup (lo hi : Z) : NoDup (np_arange lo hi).
Proof.
  unfold np_arange. apply Injective_map_NoDup.
  - intros i j Hij. lia.
  - apply seq_NoDup.
Qed.

Lemma np_arange_nth (lo hi : Z) (i : nat) (d : Z) :
  i < Z.to_nat (hi - lo) -> nth i (np_arange lo hi) d = (lo + Z.of_nat i)%Z.
Proof.
  intros Hi. unfold np_arange.
  rewrite (nth_indep _ d (lo + Z.of_nat 0)%Z) by now rewrite length_map, length_seq.
  rewrite (map_nth (fun i => (lo + Z.of_nat i)%Z)), seq_nth by exact Hi.
  reflexivity.
Qed.

Lemma np_repeat_length (a : list Z) (k : nat) :
  length (np_repeat a k) = length a * k.
Proof.
  unfold np_repeat. induction a as [|v a IH]; simpl; [reflexivity|].
  now rewrite length_app, repeat_length, IH.
Qed.

Lemma np_repeat_In (a : list Z) (k : nat) (g : Z) :
  In g (np_repeat a k) -> In g a.
Proof.
  unfold np_repeat. rewrite in_flat_map. intros (v & Hv & Hg).
  apply repeat_spec in Hg. now subst.
Qed.

(** The pool of group ids of a train set of [n] vectors. *)
Lemma group_pool_length (n : nat) :
  length (np_arange 1 (Z.of_nat (n / 100) + 1)) = n / 100.
Proof. rewrite np_arange_length. lia. Qed.

Lemma train_ids_length (n : nat) :
  length (np_repeat (np_arange 1 (Z.of_nat (n / 100) + 1)) 100) = 100 * (n / 100).
Proof. rewrite np_repeat_length, group_pool_length. lia. Qed.

Lemma remove_nth_Permutation {A : Type} (d : A) (l : list A) :
  forall j, j < length l -> Permutation l (nth j l d :: remove_nth j l).
Proof.
  unfold remove_nth. induction l as [|a l IH]; intros j Hj; simpl in Hj; [lia|].
  destruct j as [|j]; simpl.
  - apply Permutation_refl.
  - eapply perm_trans; [apply perm_skip, (IH j); lia | apply perm_swap].
Qed.

Lemma remove_nth_length {A : Type} (l : list A) (j : nat) :
  j < length l -> length (remove_nth j l) = length l - 1.
Proof.
  intros Hj. destruct l as [|a l]; [simpl in Hj; lia|].
  pose proof (Permutation_length (remove_nth_Permutation a (a :: l) j Hj)) as H.
  simpl in H |- *. lia.
Qed.

Section SamplingFacts.

Variable bits : nat -> Z.

Lemma np_random_randint_run (lo hi : Z) (s : nat) :
  np_random_randint bits lo hi s = inr ((lo + bits s mod (hi - lo))%Z, S s).
Proof. reflexivity. Qed.

Lemma draw_distinct_spec (size : nat) :
  forall (pool : list Z) (s : nat),
    size <= length pool -> NoDup pool ->
    exists l s',
      draw_distinct bits size pool s = inr (l, s') /\
      length l = size /\ NoDup l /\ incl l pool.
Proof.
  induction size as [|size IH]; intros pool s Hlen Hnd; simpl.
  - exists [], s. repeat split; [constructor | intros g []].
  - unfold bind, next.
    set (j := Z.to_nat (bits s mod Z.of_nat (length pool))).
    assert (Hj : j < length pool).
    { unfold j. pose proof (Z.mod_pos_bound (bits s) (Z.of_nat (length pool))). lia. }
    pose proof (remove_nth_Permutation 0%Z pool j Hj) as Hperm.
    assert (Hnd' : NoDup (nth j pool 0%Z :: remove_nth j pool))
      by (eapply Permutation_NoDup; eassumption).
    apply NoDup_cons_iff in Hnd'. destruct Hnd' as [Hfresh Hrest].
    destruct (IH (remove_nth j pool) (S s)) as (l & s' & Hrun & Hl & Hndl & Hincl);
      [rewrite remove_nth_length by exact Hj; lia | exact Hrest |].
    rewrite Hrun. exists (nth j pool 0%Z :: l), s'. unfold ret.
    repeat split.
    + simpl. congruence.
    + constructor; [|exact Hndl]. intros Hin. apply Hfresh, Hincl, Hin.
    + intros g [<- | Hg].
      * apply nth_In, Hj.
      * apply (Permutation_in g (Permutation_sym Hperm)). right. apply Hincl, Hg.
Qed.

(** A successful [np.random.choice(a, size, replace=False)] is a
    duplicate-free selection of [size] members of [a]. *)
Lemma np_random_choice_inv (a : list Z) (size s : nat) (l : list Z) (s' : nat) :
  NoDup a ->
  np_random_choice bits a size s = inr (l, s') ->
  size <= length a /\ length l = size /\ NoDup l /\ incl l a.
Proof.
  intros Hnd H. unfold np_random_choice in H.
  destruct ((length a =? 0) && negb (size =? 0)) eqn:E0; [discriminate|].
  destruct (Nat.ltb_spec (length a) size) as [Hlt | Hle]; [discriminate|].
  destruct (draw_distinct_spec size a s Hle Hnd) as (l0 & s0 & Hrun & Hspec).
  rewrite Hrun in H. inversion H; subst. auto.
Qed.

Lemma np_random_choice_total (a : list Z) (size s : nat) :
  NoDup a -> size <= length a ->
  exists l s', np_random_choice bits a size s = inr (l, s').
Proof.
  intros Hnd Hle. unfold np_random_choice.
  destruct ((length a =? 0) && negb (size =? 0)) eqn:E0.
  - apply andb_prop in E0. destruct E0 as [Ea Es].
    apply Nat.eqb_eq in Ea. apply negb_true_iff, Nat.eqb_neq in Es. lia.
  - destruct (Nat.ltb_spec (length a) size) as [Hlt | _]; [lia|].
    destruct (draw_distinct_spec size a s Hle Hnd) as (l & s' & Hrun & _).
    eauto.
Qed.

Lemma assign_ids_unfold (n x : nat) :
  assign_ids bits n x true =
  bind (replicateM x (draw_query_ids bits n)) (fun test_ids =>
    ret (Some (np_repeat (np_arange 1 (Z.of_nat (n / 100) + 1)) 100), Some test_ids)).
Proof. reflexivity. Qed.

Lemma num_ids_range (s : nat) :
  1 <= Z.to_nat (1 + bits s mod (6 - 1)) <= 5.
Proof. pose proof (Z.mod_pos_bound (bits s) (6 - 1)). lia. Qed.

Lemma draw_query_ids_inv (n s : nat) (ids : list Z) (s' : nat) :
  draw_query_ids bits n s = inr (ids, s') ->
  1 <= length ids <= 5 /\ NoDup ids /\
  Forall (fun g => (1 <= g <= Z.of_nat (n / 100))%Z) ids.
Proof.
  unfold draw_query_ids, bind. rewrite np_random_randint_run. intros H.
  apply np_random_choice_inv in H; [|apply np_arange_NoDup].
  destruct H as (_ & Hlen & Hnd & Hincl).
  pose proof (num_ids_range s) as Hk.
  repeat split; try lia; [exact Hnd|].
  rewrite Forall_forall. intros g Hg. apply Hincl, np_arange_In in Hg. lia.
Qed.

Lemma draw_query_ids_total (n s : nat) :
  5 <= n / 100 -> exists ids s', draw_query_ids bits n s = inr (ids, s').
Proof.
  intros Hn. unfold draw_query_ids, bind. rewrite np_random_randint_run.
  apply np_random_choice_total; [apply np_arange_NoDup|].
  rewrite group_pool_length. pose proof (num_ids_range s). lia.
Qed.

End SamplingFacts.

(** ** Distances *)

Lemma sq_dist_nonneg (u : list Q) : forall v, (0 <= sq_dist u v)%Q.
Proof.
  induction u as [|a u IH]; intros v; simpl; [apply Qle_refl|].
  destruct v as [|b v]; [apply Qle_refl|].
  setoid_replace 0%Q with (0 + 0)%Q by ring.
  apply Qplus_le_compat; [|apply IH].
  destruct (Qlt_le_dec (a - b) 0) as [Hneg | Hpos].
  - setoid_replace ((a - b) * (a - b))%Q with ((- (a - b)) * (- (a - b)))%Q by ring.
    apply Qmult_le_0_compat; apply Qlt_le_weak;
      setoid_replace 0%Q with (- 0)%Q by ring; now apply Qopp_lt_compat.
  - now apply Qmult_le_0_compat.
Qed.

(** Comparing squared distances is comparing Euclidean distances. *)
Lemma euclid_le_iff (q u v : list Q) :
  (sq_dist q u <= sq_dist q v)%Q <-> (euclid q u <= euclid q v)%R.
Proof.
  unfold euclid. split; intros H.
  - apply sqrt_le_1_alt, Qle_Rle, H.
  - apply Rle_Qle, sqrt_le_0; [| | exact H];
      (replace 0%R with (Q2R 0) by (unfold Q2R; simpl; lra));
      apply Qle_Rle, sq_dist_nonneg.
Qed.

Lemma torch_cdist_length (q : list Q) (data : list (list Q)) :
  length (torch_cdist q data) = length data.
Proof. apply length_map. Qed.

Lemma torch_cdist_nth (q : list Q) (data : list (list Q)) (i : nat) :
  i < length data ->
  nth i (torch_cdist q data) 0%Q = sq_dist q (nth i data []).
Proof.
  intros Hi. unfold torch_cdist.
  rewrite (nth_indep _ 0%Q (sq_dist q [])) by now rewrite length_map.
  apply map_nth.
Qed.

(** ** Selection of the smallest distances *)

Lemma insert_by_distance_Permutation (e : nat * Q) (l : list (nat * Q)) :
  Permutation (e :: l) (insert_by_distance e l).
Proof.
  induction l as [|h t IH]; simpl; [apply Permutation_refl|].
  destruct (Qle_bool (snd e) (snd h)); [apply Permutation_refl|].
  eapply perm_trans; [apply perm_swap | apply perm_skip, IH].
Qed.

Lemma sort_by_distance_Permutation (l : list (nat * Q)) :
  Permutation l (sort_by_distance l).
Proof.
  induction l as [|e l IH]; simpl; [constructor|].
  eapply perm_trans; [apply perm_skip, IH | apply insert_by_distance_Permutation].
Qed.

Lemma dle_trans (a b c : nat * Q) : dle a b -> dle b c -> dle a c.
Proof. unfold dle. apply Qle_trans. Qed.

Lemma insert_by_distance_sorted (e : nat * Q) (l : list (nat * Q)) :
  StronglySorted dle l -> StronglySorted dle (insert_by_distance e l).
Proof.
  induction 1 as [|h t Hss IH Hh]; simpl.
  - repeat constructor.
  - destruct (Qle_bool (snd e) (snd h)) eqn:E.
    + apply Qle_bool_iff in E.
      constructor; [constructor; assumption|].
      constructor; [exact E|].
      eapply Forall_impl; [|exact Hh]. intros c Hc. eapply dle_trans; eassumption.
    + assert (Hhe : dle h e).
      { unfold dle. apply Qlt_le_weak, Qnot_le_lt. intros Hle.
        apply Qle_bool_iff in Hle. congruence. }
      constructor; [exact IH|].
      rewrite Forall_forall. intros c Hc.
      apply (Permutation_in c (Permutation_sym (insert_by_distance_Permutation e t))) in Hc.
      destruct Hc as [<- | Hc]; [exact Hhe|].
      rewrite Forall_forall in Hh. now apply Hh.
Qed.

Lemma sort_by_distance_sorted (l : list (nat * Q)) :
  StronglySorted dle (sort_by_distance l).
Proof.
  induction l as [|e l IH]; simpl; [constructor|].
  now apply insert_by_distance_sorted.
Qed.

Lemma StronglySorted_app_inv {A : Type} (R : A -> A -> Prop) (l1 l2 : list A) :
  StronglySorted R (l1 ++ l2) ->
  StronglySorted R l1 /\ forall a b, In a l1 -> In b l2 -> R a b.
Proof.
  induction l1 as [|h t IH]; simpl; intros H.
  - split; [constructor | intros a b []].
  - inversion H as [|? ? Hss Hall]; subst.
    destruct (IH Hss) as [Ht Hcross].
    rewrite Forall_forall in Hall.
    split.
    + constructor; [exact Ht|]. rewrite Forall_forall.
      intros c Hc. apply Hall, in_or_app. now left.
    + intros a b [<- | Ha] Hb; [apply Hall, in_or_app; now right | now apply Hcross].
Qed.

Lemma StronglySorted_map {A B : Type} (R : A -> A -> Prop) (R' : B -> B -> Prop)
    (f : A -> B) (l : list A) :
  (forall a b, In a l -> In b l -> R a b -> R' (f a) (f b)) ->
  StronglySorted R l -> StronglySorted R' (map f l).
Proof.
  intros Hf Hss. induction Hss as [|h t Hss IH Hh]; simpl; constructor.
  - apply IH. intros a b Ha Hb. apply Hf; now right.
  - rewrite Forall_forall in Hh |- *. intros c Hc.
    apply in_map_iff in Hc. destruct Hc as (a & <- & Ha).
    apply Hf; [now left | now right | now apply Hh].
Qed.

(** The pairs handed to the sort: position and entry. *)
Lemma In_enumerate (l : list Q) :
  forall a i d,
    In (i, d) (combine (seq a (length l)) l) <->
    a <= i < a + length l /\ nth_error l (i - a) = Some d.
Proof.
  induction l as [|h t IH]; intros a i d; simpl.
  - split; [intros [] | intros [Hi _]; lia].
  - rewrite IH. split.
    + intros [E | [Hi Hn]].
      * inversion E; subst. rewrite Nat.sub_diag. simpl. split; [lia | reflexivity].
      * split; [lia|]. replace (i - a) with (S (i - S a)) by lia. exact Hn.
    + intros [Hi Hn]. destruct (Nat.eq_dec i a) as [-> | Hne].
      * rewrite Nat.sub_diag in Hn. simpl in Hn. left. congruence.
      * right. split; [lia|].
        replace (i - a) with (S (i - S a)) in Hn by lia. exact Hn.
Qed.

Lemma map_fst_enumerate (l : list Q) :
  forall a, map fst (combine (seq a (length l)) l) = seq a (length l).
Proof.
  induction l as [|h t IH]; intros a; simpl; [reflexivity|].
  now rewrite IH.
Qed.

Lemma In_firstn {A : Type} (k : nat) (l : list A) (a : A) :
  In a (firstn k l) -> In a l.
Proof.
  intros H. rewrite <- (firstn_skipn k l). apply in_or_app. now left.
Qed.

Lemma torch_topk_spec (distances : list Q) (k : nat) :
  k <= length distances ->
  exists idx,
    torch_topk distances k = inr idx /\
    length idx = k /\
    NoDup idx /\
    Forall (fun i => i < length distances) idx /\
    StronglySorted
      (fun i j => (nth i distances 0 <= nth j distances 0)%Q) idx /\
    forall j, j < length distances -> ~ In j idx ->
      Forall (fun i => (nth i distances 0 <= nth j distances 0)%Q) idx.
Proof.
  intros Hk. unfold torch_topk.
  destruct (Nat.ltb_spec (length distances) k) as [Hlt | _]; [lia|].
  set (pairs := combine (seq 0 (length distances)) distances).
  set (sorted := sort_by_distance pairs).
  assert (Hperm : Permutation pairs sorted) by apply sort_by_distance_Permutation.
  assert (Hss : StronglySorted dle sorted) by apply sort_by_distance_sorted.
  assert (Hpair : forall i d, In (i, d) sorted ->
                    i < length distances /\ d = nth i distances 0%Q).
  { intros i d Hin. apply (Permutation_in _ (Permutation_sym Hperm)) in Hin.
    unfold pairs in Hin. apply In_enumerate in Hin. destruct Hin as [Hi Hn].
    rewrite Nat.sub_0_r in Hn. split; [lia|].
    symmetry. now apply nth_error_nth. }
  assert (Hlen : length sorted = length distances).
  { rewrite <- (Permutation_length Hperm). unfold pairs.
    rewrite length_combine, length_seq. lia. }
  assert (Hnd : NoDup (map fst sorted)).
  { apply (Permutation_NoDup (Permutation_map fst Hperm)).
    unfold pairs. rewrite map_fst_enumerate. apply seq_NoDup. }
  rewrite <- (firstn_skipn k sorted) in Hss, Hnd.
  apply StronglySorted_app_inv in Hss. destruct Hss as [Hfirst Hcross].
  rewrite map_app in Hnd.
  eexists. split; [reflexivity|]. repeat split.
  - rewrite length_map, length_firstn. lia.
  - eapply NoDup_app_remove_r. exact Hnd.
  - rewrite Forall_forall. intros i Hi. apply in_map_iff in Hi.
    destruct Hi as ([i' d] & <- & Hin). apply In_firstn in Hin.
    apply (Hpair _ _ Hin).
  - apply (StronglySorted_map dle); [|exact Hfirst].
    intros [i d] [j e] Hi Hj Hle. apply In_firstn in Hi, Hj.
    destruct (Hpair _ _ Hi) as [_ ->]. destruct (Hpair _ _ Hj) as [_ Hje].
    unfold dle in Hle. simpl in Hle |- *. now rewrite Hje in Hle.
  - intros j Hj Hout. rewrite Forall_forall. intros i Hi.
    apply in_map_iff in Hi. destruct Hi as ([i' d] & <- & Hin).
    assert (Hjin : In (j, nth j distances 0%Q) sorted).
    { apply (Permutation_in _ Hperm). unfold pairs. apply In_enumerate.
      rewrite Nat.sub_0_r. split; [lia|]. now apply nth_error_nth'. }
    rewrite <- (firstn_skipn k sorted) in Hjin. apply in_app_or in Hjin.
    destruct Hjin as [Hjin | Hjin].
    + exfalso. apply Hout. apply in_map_iff. now exists (j, nth j distances 0%Q).
    + pose proof (Hcross _ _ Hin Hjin) as Hle.
      destruct (Hpair _ _ (In_firstn _ _ _ Hin)) as [_ ->].
      exact Hle.
Qed.

Lemma torch_topk_error (distances : list Q) (k : nat) :
  length distances < k -> torch_topk distances k = inl RuntimeError_topk_range.
Proof.
  intros Hlt. unfold torch_topk.
  destruct (Nat.ltb_spec (length distances) k); [reflexivity | lia].
Qed.

(** ** The loop of step 3 *)

Lemma index_select_arange (n : nat) (idx : list nat) :
  Forall (fun i => i < n) idx ->
  index_select (np_arange 0 (Z.of_nat n)) idx = map Z.of_nat idx.
Proof.
  intros Hidx. unfold index_select. apply map_ext_in. intros j Hj.
  rewrite Forall_forall in Hidx.
  rewrite np_arange_nth by (specialize (Hidx j Hj); lia). lia.
Qed.

Lemma eligible_without_predicates (n : nat) (train : list (list Q))
    (tr : option (list Z)) (te : option (list (list Z))) (i : nat) :
  eligible false n train tr te i = inr (train, np_arange 0 (Z.of_nat n)).
Proof. reflexivity. Qed.

(** Without predicates and with at least [K] train vectors, an iteration
    appends one row, the [K] nearest train vectors. *)
Lemma knn_query_nearest (n : nat) (train : list (list Q))
    (tr : option (list Z)) (te : option (list (list Z)))
    (test : list (list Q)) (i : nat) :
  length train = n -> K <= n ->
  exists row,
    knn_query false n train tr te test i = inr [row] /\
    nearest_row n train (nth i test []) row.
Proof.
  intros Hlen Hn. unfold knn_query. rewrite eligible_without_predicates.
  cbn [res_bind]. cbv beta iota.
  set (q := nth i test []).
  assert (HK : K = 100) by reflexivity.
  destruct (Nat.ltb_spec 0 (length train)) as [_ | H0]; [|lia].
  destruct (torch_topk_spec (torch_cdist q train) K)
    as (idx & Hrun & Hl & Hnd & Hrange & Hsorted & Hout).
  { rewrite torch_cdist_length. lia. }
  rewrite torch_cdist_length, Hlen in Hrange, Hout.
  rewrite Hrun. cbn [res_bind].
  rewrite (index_select_arange n idx Hrange).
  eexists. split; [reflexivity|].
  assert (Hd : forall a, a < n ->
             nth a (torch_cdist q train) 0%Q = sq_dist q (train_row train (Z.of_nat a))).
  { intros a Ha. unfold train_row. rewrite Nat2Z.id.
    apply torch_cdist_nth. lia. }
  rewrite Forall_forall in Hrange.
  unfold nearest_row. repeat split.
  - now rewrite length_map.
  - apply Injective_map_NoDup; [intros a b; apply Nat2Z.inj | exact Hnd].
  - rewrite Forall_forall. intros v Hv. apply in_map_iff in Hv.
    destruct Hv as (a & <- & Ha). specialize (Hrange a Ha). lia.
  - eapply StronglySorted_map; [|exact Hsorted].
    intros a b Ha Hb Hle. cbv beta in Hle.
    rewrite !Hd in Hle by now apply Hrange.
    now apply euclid_le_iff.
  - intros j Hj Hnot. rewrite Forall_forall. intros v Hv.
    apply in_map_iff in Hv. destruct Hv as (a & <- & Ha).
    assert (Hj' : Z.to_nat j < n) by lia.
    assert (Hnot' : ~ In (Z.to_nat j) idx).
    { intros Hin. apply Hnot. apply in_map_iff. exists (Z.to_nat j). split; [lia | exact Hin]. }
    specialize (Hout _ Hj' Hnot'). rewrite Forall_forall in Hout.
    specialize (Hout a Ha). cbv beta in Hout.
    rewrite !Hd in Hout by first [assumption | now apply Hrange].
    rewrite Z2Nat.id in Hout by lia.
    now apply euclid_le_iff.
Qed.

(** Without predicates and with fewer than [K] train vectors (but some),
    an iteration raises. *)
Lemma knn_query_topk_error (n : nat) (train : list (list Q))
    (tr : option (list Z)) (te : option (list (list Z)))
    (test : list (list Q)) (i : nat) :
  0 < length train < K ->
  knn_query false n train tr te test i = inl RuntimeError_topk_range.
Proof.
  intros [H0 HK]. unfold knn_query. rewrite eligible_without_predicates.
  cbn [res_bind]. cbv beta iota.
  destruct (Nat.ltb_spec 0 (length train)) as [_ | H]; [|lia].
  rewrite torch_topk_error by now rewrite torch_cdist_length.
  reflexivity.
Qed.

(** With predicates an iteration that does not raise appends nothing. *)
Lemma knn_query_predicates_appends_nothing (n : nat) (train : list (list Q))
    (tr : option (list Z)) (te : option (list (list Z)))
    (test : list (list Q)) (i : nat) (rows : list (list Z)) :
  knn_query true n train tr te test i = inr rows -> rows = [].
Proof.
  unfold knn_query.
  destruct (eligible true n train tr te i) as [e | [filtered global]];
    cbn [res_bind]; intros H; [discriminate | now inversion H].
Qed.

Lemma knn_loop_rows (body : nat -> result (list (list Z)))
    (P : nat -> list Z -> Prop) (queries : list nat) :
  (forall i, In i queries -> exists row, body i = inr [row] /\ P i row) ->
  exists rows, knn_loop body queries = inr rows /\ Forall2 P queries rows.
Proof.
  induction queries as [|i rest IH]; intros Hbody; simpl.
  - exists []. split; [reflexivity | constructor].
  - destruct (Hbody i (or_introl eq_refl)) as (row & Hrow & HP).
    destruct IH as (rows & Hrows & Hall); [intros j Hj; apply Hbody; now right|].
    rewrite Hrow, Hrows. cbn [res_bind]. exists (row :: rows).
    split; [reflexivity | now constructor].
Qed.

Lemma knn_loop_nothing (body : nat -> result (list (list Z))) (queries : list nat) :
  forall rows,
    (forall i appended, In i queries -> body i = inr appended -> appended = []) ->
    knn_loop body queries = inr rows -> rows = [].
Proof.
  induction queries as [|i rest IH]; intros rows Hbody; simpl; intros H.
  - now inversion H.
  - destruct (body i) as [e | appended] eqn:Ei; cbn [res_bind] in H; [discriminate|].
    destruct (knn_loop body rest) as [e | later] eqn:Er; cbn [res_bind] in H; [discriminate|].
    inversion H; subst.
    rewrite (Hbody i appended (or_introl eq_refl) Ei).
    rewrite (IH later); [reflexivity | | reflexivity].
    intros j a Hj. apply Hbody. now right.
Qed.

Lemma knn_loop_first_error (body : nat -> result (list (list Z)))
    (i : nat) (rest : list nat) (e : exn) :
  body i = inl e -> knn_loop body (i :: rest) = inl e.
Proof. intros H. simpl. now rewrite H. Qed.

Lemma Forall2_seq_nth_error {B : Type} (P : nat -> B -> Prop) (x : nat) :
  forall a (rows : list B),
    Forall2 P (seq a x) rows ->
    length rows = x /\
    forall i row, nth_error rows i = Some row -> P (a + i) row.
Proof.
  induction x as [|x IH]; intros a rows H; simpl in H.
  - inversion H; subst. split; [reflexivity|]. intros [|i] row Hn; discriminate.
  - inversion H as [|? row0 ? rows' HP Hrest]; subst.
    destruct (IH _ _ Hrest) as [Hlen Hnth].
    split; [simpl; congruence|].
    intros [|i] row Hn; simpl in Hn.
    + inversion Hn; subst. now rewrite Nat.add_0_r.
    + replace (a + S i) with (S a + i) by lia. now apply Hnth.
Qed.

Lemma Forall2_In_right {A B : Type} (P : A -> B -> Prop) (l : list A) (rows : list B) :
  Forall2 P l rows -> forall row, In row rows -> exists i, In i l /\ P i row.
Proof.
  induction 1 as [|i row0 l rows HP _ IH]; intros row Hin; [destruct Hin|].
  destruct Hin as [<- | Hin].
  - exists i. split; [now left | exact HP].
  - destruct (IH row Hin) as (j & Hj & HPj). exists j. split; [now right | exact HPj].
Qed.

(** ** The whole function *)

Section RunFacts.

Variable bits : nat -> Z.

(** A run is the four steps in sequence. *)
Lemma generate_knn_dataset_steps (n p x : nat) (f : string) (up : bool)
    (s s1 s2 s3 : nat) (train test : list (list Q))
    (ids : option (list Z) * option (list (list Z)))
    (neighbors : list (list Z)) :
  np_random_rand_f32 bits n p s = inr (train, s1) ->
  np_random_rand_f32 bits x p s1 = inr (test, s2) ->
  assign_ids bits n x up s2 = inr (ids, s3) ->
  knn_loop (knn_query up n train (fst ids) (snd ids) test) (seq 0 x)
    = inr neighbors ->
  generate_knn_dataset bits n p x f up s =
  inr ({| train_data := train; test_data := test;
          train_ids := fst ids; test_ids := snd ids;
          neighbors_list := neighbors; output_path := f;
          h5f := write_h5 n p x up train test (fst ids) (snd ids) neighbors |},
       s3).
Proof.
  intros H1 H2 H3 H4. unfold generate_knn_dataset, bind, lift.
  now rewrite H1, H2, H3, H4.
Qed.

Lemma generate_knn_dataset_inv (n p x : nat) (f : string) (up : bool)
    (s s' : nat) (r : run) :
  generate_knn_dataset bits n p x f up s = inr (r, s') ->
  exists s1 s2,
    np_random_rand_f32 bits n p s = inr (train_data r, s1) /\
    np_random_rand_f32 bits x p s1 = inr (test_data r, s2) /\
    assign_ids bits n x up s2 = inr ((train_ids r, test_ids r), s') /\
    knn_loop (knn_query up n (train_data r) (train_ids r) (test_ids r)
                (test_data r)) (seq 0 x) = inr (neighbors_list r) /\
    output_path r = f /\
    h5f r = write_h5 n p x up (train_data r) (test_data r)
              (train_ids r) (test_ids r) (neighbors_list r).
Proof.
  unfold generate_knn_dataset, bind, lift. intros H.
  destruct (np_random_rand_f32 bits n p s) as [e | [train s1]] eqn:Htrain;
    [discriminate|].
  destruct (np_random_rand_f32 bits x p s1) as [e | [test s2]] eqn:Htest;
    [discriminate|].
  destruct (assign_ids bits n x up s2) as [e | [[tr te] s3]] eqn:Hids;
    [discriminate|].
  cbn [fst snd] in H.
  destruct (knn_loop (knn_query up n train tr te test) (seq 0 x))
    as [e | neighbors] eqn:Hloop; [discriminate|].
  unfold ret in H. inversion H; subst.
  cbn [train_data test_data train_ids test_ids neighbors_list output_path h5f].
  exists s1, s2. repeat split; try reflexivity; assumption.
Qed.

(** A failure in a step is the failure of the run. *)
Lemma generate_knn_dataset_ids_error (n p x : nat) (f : string) (up : bool)
    (s s1 s2 : nat) (train test : list (list Q)) (e : exn) :
  np_random_rand_f32 bits n p s = inr (train, s1) ->
  np_random_rand_f32 bits x p s1 = inr (test, s2) ->
  assign_ids bits n x up s2 = inl e ->
  generate_knn_dataset bits n p x f up s = inl e.
Proof.
  intros H1 H2 H3. unfold generate_knn_dataset, bind.
  now rewrite H1, H2, H3.
Qed.

Lemma generate_knn_dataset_knn_error (n p x : nat) (f : string) (up : bool)
    (s s1 s2 s3 : nat) (train test : list (list Q))
    (ids : option (list Z) * option (list (list Z))) (e : exn) :
  np_random_rand_f32 bits n p s = inr (train, s1) ->
  np_random_rand_f32 bits x p s1 = inr (test, s2) ->
  assign_ids bits n x up s2 = inr (ids, s3) ->
  knn_loop (knn_query up n train (fst ids) (snd ids) test) (seq 0 x) = inl e ->
  generate_knn_dataset bits n p x f up s = inl e.
Proof.
  intros H1 H2 H3 H4. unfold generate_knn_dataset, bind, lift.
  now rewrite H1, H2, H3, H4.
Qed.

End RunFacts.

(** ** Step 1: the generated matrices *)

(** C6, as stated, fails: when every raw draw is [2^53 - 1] the float64
    entries are [1 - 2^-53], and the float32 cast rounds them to [1]; the
    run (n = 100, p = 1, x = 1, no predicates) succeeds with a train matrix
    whose entries are not in [0,1). *)
Lemma float32_entry_reaches_one :
  exists r s',
    generate_knn_dataset (fun _ => (2 ^ 53 - 1)%Z) 100 1 1 "out.hdf5" false 0
      = inr (r, s') /\
    ~ entries in_unit_half_open (train_data r).
Proof.
  eexists _, _. split; [vm_compute; reflexivity|].
  cbn [train_data]. intros H.
  inversion H as [|row rows Hrow _]; subst.
  inversion Hrow as [|v vs Hv _]; subst.
  destruct Hv as [_ Hlt]. revert Hlt. vm_compute. discriminate.
Qed.

(** C6 (amended): for every invocation the generated train matrix has
    shape exactly (n,p) and the test matrix shape exactly (x,p), every
    entry is a float32, and every entry lies in the closed interval [0,1];
    these are the matrices a successful run holds in [train_data] and
    [test_data]. *)
Theorem generated_matrices (bits : nat -> Z) (n p x s : nat) :
  exists train test s1 s2,
    np_random_rand_f32 bits n p s = inr (train, s1) /\
    np_random_rand_f32 bits x p s1 = inr (test, s2) /\
    has_shape train n p /\ has_shape test x p /\
    entries is_float32 train /\ entries is_float32 test /\
    entries in_unit_closed train /\ entries in_unit_closed test /\
    forall f up r s',
      generate_knn_dataset bits n p x f up s = inr (r, s') ->
      train_data r = train /\ test_data r = test.
Proof.
  destruct (np_random_rand_f32_total bits n p s) as (train & s1 & Htrain).
  destruct (np_random_rand_f32_total bits x p s1) as (test & s2 & Htest).
  destruct (np_random_rand_f32_spec bits _ _ _ _ _ Htrain) as (Hs1 & Hf1 & Hu1).
  destruct (np_random_rand_f32_spec bits _ _ _ _ _ Htest) as (Hs2 & Hf2 & Hu2).
  exists train, test, s1, s2.
  repeat (split; [assumption|]).
  intros f up r s' H. apply generate_knn_dataset_inv in H.
  destruct H as (t1 & t2 & H1 & H2 & _).
  assert (t1 = s1) by congruence. subst t1.
  split; congruence.
Qed.

(** ** Step 2: group ids *)

Section GroupIdFacts.

Variable bits : nat -> Z.

Lemma assign_ids_inv (n x s : nat)
    (ids : option (list Z) * option (list (list Z))) (s' : nat) :
  assign_ids bits n x true s = inr (ids, s') ->
  exists te,
    ids = (Some (np_repeat (np_arange 1 (Z.of_nat (n / 100) + 1)) 100), Some te) /\
    length te = x /\
    Forall (fun q => 1 <= length q <= 5 /\ NoDup q /\
                     Forall (fun g => (1 <= g <= Z.of_nat (n / 100))%Z) q) te.
Proof.
  rewrite assign_ids_unfold. unfold bind. intros H.
  destruct (replicateM x (draw_query_ids bits n) s) as [e | [te s1]] eqn:Hte;
    [discriminate|].
  unfold ret in H. inversion H; subst. exists te. split; [reflexivity|].
  eapply replicateM_inv; [|exact Hte].
  intros s0 q s2. apply draw_query_ids_inv.
Qed.

Lemma assign_ids_total (n x s : nat) :
  5 <= n / 100 -> exists ids s', assign_ids bits n x true s = inr (ids, s').
Proof.
  intros Hn. rewrite assign_ids_unfold. unfold bind.
  destruct (replicateM_total (draw_query_ids bits n)) with (k := x) (s := s)
    as (te & s' & Hte).
  - intros s0. now apply draw_query_ids_total.
  - rewrite Hte. eexists _, _. reflexivity.
Qed.

Lemma draw_query_ids_raises (n s : nat) :
  n / 100 < Z.to_nat (1 + bits s mod (6 - 1)) ->
  draw_query_ids bits n s
  = inl (if n / 100 =? 0 then ValueError_choice_empty
         else ValueError_choice_too_large).
Proof.
  intros Hk. unfold draw_query_ids, bind. rewrite np_random_randint_run.
  unfold np_random_choice. rewrite group_pool_length.
  pose proof (num_ids_range bits s) as Hr.
  set (k := Z.to_nat (1 + bits s mod (6 - 1))) in *.
  destruct (Nat.eqb_spec k 0) as [Hk0 | _]; [lia|].
  destruct (Nat.eqb_spec (n / 100) 0) as [H0 | H0]; cbn [andb negb]; [reflexivity|].
  destruct (Nat.ltb_spec (n / 100) k); [reflexivity | lia].
Qed.

Lemma assign_ids_first_error (n x s : nat) (e : exn) :
  draw_query_ids bits n s = inl e -> assign_ids bits n (S x) true s = inl e.
Proof.
  intros H. rewrite assign_ids_unfold. simpl. unfold bind. now rewrite H.
Qed.

End GroupIdFacts.

(** C4 at n = 150 (p = 1, x = 1, predicates on, every raw draw 0): the
    train group-id sequence is one block of 100 ones, so its length is 100
    and not 150 and the id 2 = ceil(150/100) is missing; the mask built
    from it does not fit the 150-row train tensor and the run stops with an
    IndexError. *)
Theorem train_ids_drop_partial_block :
  (exists te s',
     assign_ids (fun _ => 0%Z) 150 1 true 151
     = inr ((Some (repeat 1%Z 100), te), s')) /\
  generate_knn_dataset (fun _ => 0%Z) 150 1 1 "out.hdf5" true 0
  = inl IndexError_mask_shape.
Proof.
  split; [eexists _, _|]; vm_compute; reflexivity.
Qed.

(** C5, as stated, fails: with n = 100 there is one group; a draw of
    [num_ids] = 2 (raw draw 1) asks two distinct ids of it and the run
    raises instead of associating a set with the query. *)
Lemma query_ids_draw_fails_at_100 :
  generate_knn_dataset (fun _ => 1%Z) 100 1 1 "out.hdf5" true 0
  = inl ValueError_choice_too_large.
Proof. vm_compute. reflexivity. Qed.

(** C5 (amended): when predicates are enabled and floor(n/100) >= 5, the id
    assignment succeeds and, for every one of the x queries, the associated
    group-id set has between 1 and 5 distinct members, each drawn without
    replacement from {1 .. floor(n/100)}. *)
Theorem test_ids_sets (bits : nat -> Z) (n x s : nat) :
  5 <= n / 100 ->
  exists tr te s',
    assign_ids bits n x true s = inr ((Some tr, Some te), s') /\
    length te = x /\
    Forall (fun q => 1 <= length q <= 5 /\ NoDup q /\
                     Forall (fun g => (1 <= g <= Z.of_nat (n / 100))%Z) q) te.
Proof.
  intros Hn.
  destruct (assign_ids_total bits n x s Hn) as (ids & s' & Hrun).
  destruct (assign_ids_inv bits _ _ _ _ _ Hrun) as (te & -> & Hlen & Hall).
  eexists _, te, s'. split; [exact Hrun | split; assumption].
Qed.

Lemma test_ids_sets_witness :
  5 <= 500 / 100 /\
  exists tr te s',
    assign_ids (fun _ => 3%Z) 500 2 true 0 = inr ((Some tr, Some te), s') /\
    length te = 2 /\
    Forall (fun q => 1 <= length q <= 5 /\ NoDup q /\
                     Forall (fun g => (1 <= g <= Z.of_nat (500 / 100))%Z) q) te.
Proof.
  assert (H : 5 <= 500 / 100) by (vm_compute; lia).
  split; [exact H | apply (test_ids_sets (fun _ => 3%Z) 500 2 0 H)].
Defined.

(** C9: with predicates the per-query selection draws without replacement
    from the pool {1 .. floor(n/100)}; whenever floor(n/100) < 5 (and there
    is a query) some random draw makes the selection raise, so the run
    fails and no file is written; when n < 100 the pool is empty and every
    draw does. *)
Theorem query_ids_draw_raises (n p x : nat) (f : string) (s : nat) :
  n / 100 < 5 -> 1 <= x ->
  (forall g, In g (np_arange 1 (Z.of_nat (n / 100) + 1))
             <-> (1 <= g <= Z.of_nat (n / 100))%Z) /\
  (forall bits s0 q s1,
      draw_query_ids bits n s0 = inr (q, s1) ->
      NoDup q /\ incl q (np_arange 1 (Z.of_nat (n / 100) + 1))) /\
  (exists bits e,
      (e = ValueError_choice_empty \/ e = ValueError_choice_too_large) /\
      generate_knn_dataset bits n p x f true s = inl e) /\
  (n < 100 ->
   forall bits, generate_knn_dataset bits n p x f true s
                = inl ValueError_choice_empty).
Proof.
  intros Hn Hx.
  assert (Hfail : forall bits,
             (forall s0, n / 100 < Z.to_nat (1 + bits s0 mod (6 - 1))) ->
             generate_knn_dataset bits n p x f true s
             = inl (if n / 100 =? 0 then ValueError_choice_empty
                    else ValueError_choice_too_large)).
  { intros bits Hk.
    destruct (np_random_rand_f32_total bits n p s) as (train & s1 & Htrain).
    destruct (np_random_rand_f32_total bits x p s1) as (test & s2 & Htest).
    eapply generate_knn_dataset_ids_error; [exact Htrain | exact Htest |].
    destruct x as [|x']; [lia|].
    apply assign_ids_first_error. now apply draw_query_ids_raises. }
  split; [|split; [|split]].
  - intros g. rewrite np_arange_In. lia.
  - intros bits s0 q s1 H.
    unfold draw_query_ids, bind in H. rewrite np_random_randint_run in H.
    apply np_random_choice_inv in H; [tauto | apply np_arange_NoDup].
  - exists (fun _ => 4%Z). eexists. split; [|apply Hfail; intros _; exact Hn].
    destruct (n / 100 =? 0); auto.
  - intros Hlt bits.
    assert (H0 : n / 100 = 0) by (apply Nat.div_small; exact Hlt).
    rewrite Hfail; [now rewrite H0|].
    intros s0. pose proof (num_ids_range bits s0). lia.
Qed.

Lemma query_ids_draw_raises_witness :
  100 / 100 < 5 /\ 1 <= 1 /\
  exists bits e,
    (e = ValueError_choice_empty \/ e = ValueError_choice_too_large) /\
    generate_knn_dataset bits 100 1 1 "out.hdf5" true 0 = inl e.
Proof.
  assert (Hn : 100 / 100 < 5) by (vm_compute; lia).
  assert (Hx : 1 <= 1) by lia.
  split; [exact Hn | split; [exact Hx|]].
  exact (proj1 (proj2 (proj2
           (query_ids_draw_raises 100 1 1 "out.hdf5" 0 Hn Hx)))).
Defined.

(** ** Step 3 without predicates *)

Section WithoutPredicates.

Variable bits : nat -> Z.

Lemma assign_ids_off (n x s : nat) :
  assign_ids bits n x false s = inr ((None, None), s).
Proof. reflexivity. Qed.

(** With at least [K] train vectors a run without predicates returns,
    and its rows are the nearest neighbours of the queries, in order. *)
Lemma run_without_predicates (n p x : nat) (f : string) (s : nat) :
  K <= n ->
  exists r s',
    generate_knn_dataset bits n p x f false s = inr (r, s') /\
    has_shape (train_data r) n p /\
    has_shape (test_data r) x p /\
    train_ids r = None /\ test_ids r = None /\
    Forall2
      (fun i row => nearest_row n (train_data r) (nth i (test_data r) []) row)
      (seq 0 x) (neighbors_list r).
Proof.
  intros Hn.
  destruct (np_random_rand_f32_total bits n p s) as (train & s1 & Htrain).
  destruct (np_random_rand_f32_total bits x p s1) as (test & s2 & Htest).
  destruct (np_random_rand_f32_spec bits _ _ _ _ _ Htrain) as (Hs1 & _).
  destruct (np_random_rand_f32_spec bits _ _ _ _ _ Htest) as (Hs2 & _).
  destruct (knn_loop_rows (knn_query false n train None None test)
              (fun i row => nearest_row n train (nth i test []) row) (seq 0 x))
    as (rows & Hrows & Hall).
  { intros i _. apply knn_query_nearest; [apply Hs1 | exact Hn]. }
  eexists _, _. split.
  - apply (generate_knn_dataset_steps bits n p x f false s s1 s2 s2
             train test (None, None) rows Htrain Htest (assign_ids_off n x s2) Hrows).
  - cbn [train_data test_data train_ids test_ids neighbors_list fst snd].
    split; [exact Hs1 | split; [exact Hs2 |]].
    split; [reflexivity | split; [reflexivity | exact Hall]].
Qed.

End WithoutPredicates.



(** C8: for every invocation without predicates with 0 < n < 100 and
    x >= 1, the KNN step raises (topk is asked k = 100 of fewer than 100
    distances), so the run ends without an output file. *)
Theorem topk_raises_below_100
    (bits : nat -> Z) (n p x : nat) (f : string) (s : nat) :
  0 < n < 100 -> 1 <= x ->
  generate_knn_dataset bits n p x f false s = inl RuntimeError_topk_range.
Proof.
  intros Hn Hx.
  destruct (np_random_rand_f32_total bits n p s) as (train & s1 & Htrain).
  destruct (np_random_rand_f32_total bits x p s1) as (test & s2 & Htest).
  destruct (np_random_rand_f32_spec bits _ _ _ _ _ Htrain) as ([Hlen _] & _).
  eapply generate_knn_dataset_knn_error;
    [exact Htrain | exact Htest | apply assign_ids_off |].
  destruct x as [|x']; [lia|].
  change (seq 0 (S x')) with (0 :: seq 1 x').
  apply knn_loop_first_error, knn_query_topk_error.
  rewrite Hlen. exact Hn.
Qed.

Lemma topk_raises_below_100_witness :
  0 < 99 < 100 /\ 1 <= 1 /\
  generate_knn_dataset (fun _ => 0%Z) 99 4 1 "out.hdf5" false 0
  = inl RuntimeError_topk_range.
Proof.
  assert (Hn : 0 < 99 < 100) by lia.
  assert (Hx : 1 <= 1) by lia.
  split; [exact Hn | split; [exact Hx|]].
  exact (topk_raises_below_100 (fun _ => 0%Z) 99 4 1 "out.hdf5" 0 Hn Hx).
Defined.

(** C10: for every invocation without predicates with n >= 100 the run
    returns, the eligible set of every query is all n train vectors with
    global indices 0 .. n-1, so the test that guards the sentinel branch
    succeeds, and the sentinel -1 is in no row of the neighbors list. *)
Theorem sentinel_branch_unreachable
    (bits : nat -> Z) (n p x : nat) (f : string) (s : nat) :
  100 <= n ->
  exists r s',
    generate_knn_dataset bits n p x f false s = inr (r, s') /\
    (forall i,
        eligible false n (train_data r) (train_ids r) (test_ids r) i
        = inr (train_data r, np_arange 0 (Z.of_nat n))) /\
    length (train_data r) = n /\
    (0 <? length (train_data r)) = true /\
    Forall (fun row => ~ In sentinel row) (neighbors_list r).
Proof.
  intros Hn.
  destruct (run_without_predicates bits n p x f s Hn)
    as (r & s' & Hrun & [Hlen _] & _ & _ & _ & Hall).
  exists r, s'. split; [exact Hrun|]. split; [reflexivity|].
  split; [exact Hlen|]. split; [apply Nat.ltb_lt; lia|].
  rewrite Forall_forall. intros row Hrow.
  destruct (Forall2_In_right _ _ _ Hall row Hrow) as (i & _ & Hnear).
  destruct Hnear as (_ & _ & Hrange & _).
  rewrite Forall_forall in Hrange. intros Hin.
  specialize (Hrange _ Hin). unfold sentinel in Hrange. lia.
Qed.

Lemma sentinel_branch_unreachable_witness :
  100 <= 101 /\
  exists r s',
    generate_knn_dataset (fun k => Z.of_nat k * 2 ^ 45)%Z 101 1 2 "out.hdf5" false 0
      = inr (r, s') /\
    Forall (fun row => ~ In sentinel row) (neighbors_list r).
Proof.
  assert (Hn : 100 <= 101) by lia.
  split; [exact Hn|].
  destruct (sentinel_branch_unreachable
              (fun k => Z.of_nat k * 2 ^ 45)%Z 101 1 2 "out.hdf5" 0 Hn)
    as (r & s' & Hrun & _ & _ & _ & Hrows).
  exists r, s'. split; assumption.
Defined.

Lemma astype_int32_small (v : Z) :
  (- 2 ^ 31 <= v < 2 ^ 31)%Z -> astype_int32 v = v.
Proof.
  intros Hv. unfold astype_int32. rewrite Z.mod_small; lia.
Qed.

(** Without predicates, with a query and with n within the int32 range, the
    neighbors data set is the x by 100 matrix of the rows of the list. *)
Lemma neighbors_dataset_without_predicates
    (bits : nat -> Z) (n p x : nat) (f : string) (s : nat) :
  100 <= n -> 1 <= x -> (Z.of_nat n <= 2 ^ 31)%Z ->
  exists r s' d,
    generate_knn_dataset bits n p x f false s = inr (r, s') /\
    dataset_named "neighbors" (h5f r) = Some d /\
    ds_dtype d = H5_int32 /\
    ds_shape d = [x; 100] /\
    ds_payload d = IntCells (neighbors_list r).
Proof.
  intros Hn Hx H31.
  destruct (run_without_predicates bits n p x f s Hn)
    as (r & s' & Hrun & _ & _ & _ & _ & Hall).
  pose proof (generate_knn_dataset_inv bits _ _ _ _ _ _ _ _ Hrun)
    as (s1 & s2 & _ & _ & _ & _ & _ & Hfile).
  pose proof (Forall2_In_right _ _ _ Hall) as Hrows.
  apply Forall2_seq_nth_error in Hall. destruct Hall as [Hlen _].
  exists r, s'. eexists. split; [exact Hrun|].
  rewrite Hfile. split; [reflexivity|]. cbn [ds_dtype ds_shape ds_payload].
  split; [reflexivity|]. split.
  - destruct (neighbors_list r) as [|row rows] eqn:E; [simpl in Hlen; lia|].
    unfold np_array_shape. rewrite Hlen.
    destruct (Hrows row (or_introl eq_refl)) as (i & _ & Hrow & _).
    now rewrite Hrow.
  - f_equal. rewrite <- (map_id (neighbors_list r)) at 2.
    apply map_ext_in. intros row Hrow.
    destruct (Hrows row Hrow) as (i & _ & _ & _ & Hrange & _).
    rewrite <- (map_id row) at 2. apply map_ext_in. intros v Hv.
    rewrite Forall_forall in Hrange. specialize (Hrange v Hv).
    apply astype_int32_small. lia.
Qed.

(** ** Step 3 with predicates *)

(** With predicates no iteration of the loop appends a row. *)
Lemma knn_loop_predicates_empty (n : nat) (train : list (list Q))
    (tr : option (list Z)) (te : option (list (list Z)))
    (test : list (list Q)) (queries : list nat) (rows : list (list Z)) :
  knn_loop (knn_query true n train tr te test) queries = inr rows -> rows = [].
Proof.
  apply knn_loop_nothing. intros i appended _.
  apply knn_query_predicates_appends_nothing.
Qed.

(** C2 with predicates enabled: a run that returns has appended no
    neighbors row at all, whatever the number x of queries, and the
    neighbors data set it writes is the empty array of shape (0,), not an
    x by 100 matrix. *)
Theorem predicates_leave_neighbors_empty
    (bits : nat -> Z) (n p x : nat) (f : string) (s : nat) (r : run) (s' : nat) :
  generate_knn_dataset bits n p x f true s = inr (r, s') ->
  neighbors_list r = [] /\
  exists d,
    dataset_named "neighbors" (h5f r) = Some d /\
    ds_dtype d = H5_int32 /\ ds_shape d = [0] /\ ds_payload d = IntCells [].
Proof.
  intros H. apply generate_knn_dataset_inv in H.
  destruct H as (s1 & s2 & _ & _ & _ & Hloop & _ & Hfile).
  apply knn_loop_predicates_empty in Hloop.
  split; [exact Hloop|].
  rewrite Hfile, Hloop. eexists. split; [reflexivity|].
  repeat split.
Qed.

Lemma predicates_leave_neighbors_empty_witness :
  exists r s',
    generate_knn_dataset (fun _ => 0%Z) 100 1 1 "out.hdf5" true 0 = inr (r, s') /\
    length (test_data r) = 1 /\
    neighbors_list r = [].
Proof.
  eexists _, _. split; [vm_compute; reflexivity|].
  split; [reflexivity|].
  refine (proj1 (predicates_leave_neighbors_empty
                   (fun _ => 0%Z) 100 1 1 "out.hdf5" 0 _ _ _)).
  vm_compute. reflexivity.
Defined.


(** ** Step 4: the file *)




(** * Further properties of the code *)

(** ** Runs without predicates: which sizes return *)

Lemma knn_loop_same_row (body : nat -> result (list (list Z))) (row : list Z)
    (queries : list nat) :
  (forall i, In i queries -> body i = inr [row]) ->
  knn_loop body queries = inr (repeat row (length queries)).
Proof.
  induction queries as [|i rest IH]; intros Hbody; simpl; [reflexivity|].
  rewrite (Hbody i (or_introl eq_refl)), IH by (intros j Hj; apply Hbody; now right).
  reflexivity.
Qed.

(** With an empty train set the guard of line 36 fails and every iteration
    appends the placeholder row. *)
Lemma knn_query_empty_train (n : nat) (tr : option (list Z))
    (te : option (list (list Z))) (test : list (list Q)) (i : nat) :
  knn_query false n [] tr te test i = inr [np_full K sentinel].
Proof. reflexivity. Qed.

Section EdgeSizes.

Variable bits : nat -> Z.

Lemma np_random_rand_f32_no_rows (cols s : nat) :
  np_random_rand_f32 bits 0 cols s = inr ([], s).
Proof. reflexivity. Qed.

Lemma run_empty_train (p x : nat) (f : string) (s : nat) :
  exists r s',
    generate_knn_dataset bits 0 p x f false s = inr (r, s') /\
    train_data r = [] /\
    neighbors_list r = repeat (np_full K sentinel) x /\
    h5f r = write_h5 0 p x false [] (test_data r) None None
              (repeat (np_full K sentinel) x).
Proof.
  destruct (np_random_rand_f32_total bits x p s) as (test & s2 & Htest).
  pose proof (knn_loop_same_row (knn_query false 0 [] None None test)
                (np_full K sentinel) (seq 0 x)
                (fun i _ => knn_query_empty_train 0 None None test i)) as Hloop.
  rewrite length_seq in Hloop.
  eexists _, _. split.
  - apply (generate_knn_dataset_steps bits 0 p x f false s s s2 s2
             [] test (None, None) _ (np_random_rand_f32_no_rows p s) Htest
             (assign_ids_off bits 0 x s2) Hloop).
  - repeat split.
Qed.

Lemma run_no_queries (n p : nat) (f : string) (s : nat) :
  exists r s',
    generate_knn_dataset bits n p 0 f false s = inr (r, s') /\
    neighbors_list r = [].
Proof.
  destruct (np_random_rand_f32_total bits n p s) as (train & s1 & Htrain).
  eexists _, _. split.
  - apply (generate_knn_dataset_steps bits n p 0 f false s s1 s1 s1
             train [] (None, None) [] Htrain (np_random_rand_f32_no_rows p s1)
             (assign_ids_off bits n 0 s1) eq_refl).
  - reflexivity.
Qed.

Lemma run_small_train_raises (n p x : nat) (f : string) (s : nat) :
  0 < n < K -> 1 <= x ->
  generate_knn_dataset bits n p x f false s = inl RuntimeError_topk_range.
Proof.
  intros Hn Hx.
  destruct (np_random_rand_f32_total bits n p s) as (train & s1 & Htrain).
  destruct (np_random_rand_f32_total bits x p s1) as (test & s2 & Htest).
  destruct (np_random_rand_f32_spec bits _ _ _ _ _ Htrain) as ([Hlen _] & _).
  eapply generate_knn_dataset_knn_error;
    [exact Htrain | exact Htest | apply assign_ids_off |].
  destruct x as [|x']; [lia|].
  change (seq 0 (S x')) with (0 :: seq 1 x').
  apply knn_loop_first_error, knn_query_topk_error. now rewrite Hlen.
Qed.

End EdgeSizes.

(** X1: with an empty train set (n = 0) and no predicates the run returns;
    every query gets the placeholder row of 100 times -1, and these rows
    are what the neighbors data set holds. *)
Theorem empty_train_gives_sentinel_rows
    (bits : nat -> Z) (p x : nat) (f : string) (s : nat) :
  exists r s' d,
    generate_knn_dataset bits 0 p x f false s = inr (r, s') /\
    neighbors_list r = repeat (repeat (-1)%Z 100) x /\
    dataset_named "neighbors" (h5f r) = Some d /\
    ds_dtype d = H5_int32 /\
    ds_payload d = IntCells (repeat (repeat (-1)%Z 100) x).
Proof.
  destruct (run_empty_train bits p x f s) as (r & s' & Hrun & _ & Hrows & Hfile).
  exists r, s'. eexists. split; [exact Hrun|]. split; [exact Hrows|].
  rewrite Hfile. split; [reflexivity|]. split; [reflexivity|].
  cbn [ds_payload]. f_equal. rewrite map_repeat. reflexivity.
Qed.

(** X2: a run without predicates returns exactly when there is no query,
    or the train set is empty, or it has at least 100 vectors; with
    1 to 99 train vectors and a query it raises. *)
Theorem run_without_predicates_returns_iff
    (bits : nat -> Z) (n p x : nat) (f : string) (s : nat) :
  (exists r s', generate_knn_dataset bits n p x f false s = inr (r, s'))
  <-> (x = 0 \/ n = 0 \/ 100 <= n).
Proof.
  split.
  - intros (r & s' & Hrun).
    destruct (Nat.eq_dec x 0) as [? | Hx]; [now left|].
    destruct (Nat.eq_dec n 0) as [? | Hn]; [now right; left|].
    destruct (Nat.le_gt_cases 100 n) as [? | Hlt]; [now right; right|].
    rewrite (run_small_train_raises bits n p x f s) in Hrun;
      [discriminate | unfold K; lia | lia].
  - intros [-> | [-> | Hn]].
    + destruct (run_no_queries bits n p f s) as (r & s' & Hrun & _). eauto.
    + destruct (run_empty_train bits p x f s) as (r & s' & Hrun & _). eauto.
    + destruct (run_without_predicates bits n p x f s Hn) as (r & s' & Hrun & _).
      eauto.
Qed.

(** ** The train group ids (line 11) *)

Lemma np_repeat_nth (k : nat) (d : Z) (a : list Z) :
  0 < k ->
  forall i, i < length a * k -> nth i (np_repeat a k) d = nth (i / k) a d.
Proof.
  intros Hk. unfold np_repeat.
  induction a as [|v a IH]; intros i Hi; simpl in Hi; [lia|].
  cbn [flat_map].
  destruct (Nat.lt_ge_cases i k) as [Hlt | Hge].
  - rewrite app_nth1 by now rewrite repeat_length.
    rewrite Nat.div_small by exact Hlt. simpl.
    apply (repeat_spec k v). apply nth_In. now rewrite repeat_length.
  - rewrite app_nth2 by now rewrite repeat_length.
    rewrite repeat_length.
    replace (i / k) with (S ((i - k) / k)).
    + simpl. apply IH. lia.
    + replace i with (1 * k + (i - k)) at 2 by lia.
      rewrite Nat.div_add_l by lia. reflexivity.
Qed.

Lemma np_repeat_count (k : nat) (g : Z) (a : list Z) :
  count_occ Z.eq_dec (np_repeat a k) g = k * count_occ Z.eq_dec a g.
Proof.
  unfold np_repeat. induction a as [|v a IH]; cbn [flat_map]; [simpl; lia|].
  rewrite count_occ_app, IH. simpl.
  destruct (Z.eq_dec v g) as [-> | Hne].
  - rewrite count_occ_repeat_eq by reflexivity. lia.
  - rewrite count_occ_repeat_neq by congruence. lia.
Qed.

(** X3: when predicates are enabled, train vector i (for i below
    100 * floor(n/100)) is given the group id floor(i/100) + 1, the sequence
    has length 100 * floor(n/100), and every id of 1 .. floor(n/100) is
    given to exactly 100 train vectors. *)
Theorem train_ids_blocks
    (bits : nat -> Z) (n x s : nat) (tr : list Z)
    (te : option (list (list Z))) (s' : nat) :
  assign_ids bits n x true s = inr ((Some tr, te), s') ->
  length tr = 100 * (n / 100) /\
  (forall i, i < length tr -> nth i tr 0%Z = (Z.of_nat (i / 100) + 1)%Z) /\
  (forall g, (1 <= g <= Z.of_nat (n / 100))%Z ->
             count_occ Z.eq_dec tr g = 100).
Proof.
  intros H. apply assign_ids_inv in H. destruct H as (te' & Hids & _).
  assert (Htr : tr = np_repeat (np_arange 1 (Z.of_nat (n / 100) + 1)) 100)
    by congruence.
  subst tr. clear Hids.
  split; [apply train_ids_length|]. split.
  - intros i Hi. rewrite train_ids_length in Hi.
    rewrite np_repeat_nth by (rewrite ?group_pool_length; lia).
    rewrite np_arange_nth; [lia|].
    assert (i / 100 < n / 100) by (apply Nat.Div0.div_lt_upper_bound; lia). lia.
  - intros g Hg. rewrite np_repeat_count.
    assert (Hin : In g (np_arange 1 (Z.of_nat (n / 100) + 1)))
      by (apply np_arange_In; lia).
    pose proof (proj1 (NoDup_count_occ' Z.eq_dec _) (np_arange_NoDup 1 (Z.of_nat (n / 100) + 1)) g Hin) as Hc.
    rewrite Hc. reflexivity.
Qed.

Lemma train_ids_blocks_witness :
  exists tr te s',
    assign_ids (fun _ => 0%Z) 250 1 true 0 = inr ((Some tr, te), s') /\
    length tr = 100 * (250 / 100) /\
    nth 199 tr 0%Z = 2%Z.
Proof.
  eexists _, _, _. split; [vm_compute; reflexivity|].
  pose proof (train_ids_blocks (fun _ => 0%Z) 250 1 0 _ _ _ eq_refl) as H.
  split; [exact (proj1 H)|].
  apply (proj1 (proj2 H) 199). vm_compute. lia.
Defined.

(** ** The eligible set of a query (lines 28-31) *)

Lemma filter_map_comm {A B : Type} (f : B -> bool) (g : A -> B) (l : list A) :
  filter f (map g l) = map g (filter (fun a => f (g a)) l).
Proof.
  induction l as [|a l IH]; simpl; [reflexivity|].
  destruct (f (g a)); simpl; now rewrite IH.
Qed.

(** [t[mask]] lists the entries of [t] at the positions [torch.where(mask)]
    returns. *)
Lemma mask_select_where {A : Type} (d : A) (mask : list bool) :
  forall t : list A,
    length mask = length t ->
    map snd (filter fst (combine mask t))
    = map (fun i => nth i t d)
        (filter (fun i => nth i mask false) (seq 0 (length mask))).
Proof.
  induction mask as [|b mask IH]; intros t Hlen; [reflexivity|].
  destruct t as [|v t]; [discriminate|]. simpl in Hlen.
  change (seq 0 (length (b :: mask))) with (0 :: seq 1 (length mask)).
  change (combine (b :: mask) (v :: t)) with ((b, v) :: combine mask t).
  cbn [filter fst]. change (nth 0 (b :: mask) false) with b.
  assert (Hrest : filter (fun i => nth i (b :: mask) false) (seq 1 (length mask))
                  = map S (filter (fun i => nth i mask false) (seq 0 (length mask)))).
  { rewrite <- seq_shift, filter_map_comm. reflexivity. }
  rewrite Hrest.
  destruct b; cbn [map snd nth]; rewrite IH by lia; rewrite map_map; reflexivity.
Qed.

Lemma np_isin_length (a b : list Z) : length (np_isin a b) = length a.
Proof. apply length_map. Qed.

Lemma np_isin_nth (a b : list Z) (i : nat) :
  nth i (np_isin a b) false = true <-> i < length a /\ In (nth i a 0%Z) b.
Proof.
  unfold np_isin. destruct (Nat.lt_ge_cases i (length a)) as [Hlt | Hge].
  - rewrite (nth_indep _ false (existsb (Z.eqb 0) b)) by now rewrite length_map.
    rewrite (map_nth (fun v => existsb (Z.eqb v) b)), existsb_exists.
    split.
    + intros (g & Hg & Heq). apply Z.eqb_eq in Heq. subst. auto.
    + intros [_ Hin]. exists (nth i a 0%Z). split; [exact Hin | apply Z.eqb_refl].
  - rewrite nth_overflow by now rewrite length_map.
    split; [discriminate | lia].
Qed.

Lemma filter_seq_sorted (f : nat -> bool) (a k : nat) :
  StronglySorted lt (filter f (seq a k)).
Proof.
  revert a. induction k as [|k IH]; intros a; simpl; [constructor|].
  destruct (f a); [|apply IH].
  constructor; [apply IH|].
  rewrite Forall_forall. intros i Hi. apply filter_In in Hi.
  destruct Hi as [Hi _]. apply in_seq in Hi. lia.
Qed.

(** X4: with predicates, when the group-id sequence has one id per train
    vector, the iteration's eligible set is returned as the train vectors
    at [global_indices], and [global_indices] lists in increasing order
    exactly the positions in the full train matrix whose group id belongs
    to the query's id set. *)
Theorem eligible_with_predicates
    (n : nat) (train : list (list Q)) (tr : list Z) (te : list (list Z)) (i : nat) :
  length tr = length train ->
  exists filtered global,
    eligible true n train (Some tr) (Some te) i = inr (filtered, global) /\
    filtered = map (train_row train) global /\
    StronglySorted Z.lt global /\
    forall g,
      In g global <->
      (0 <= g < Z.of_nat (length train))%Z /\
      In (nth (Z.to_nat g) tr 0%Z) (nth i te []).
Proof.
  intros Hlen. unfold eligible, mask_select.
  set (q := nth i te []). set (mask := np_isin tr q).
  assert (Hm : length mask = length train)
    by (unfold mask; now rewrite np_isin_length).
  rewrite Hm, Nat.eqb_refl. cbn [res_bind].
  eexists _, _. split; [reflexivity|]. split; [|split].
  - rewrite (mask_select_where [] mask train Hm).
    unfold torch_where, train_row. rewrite map_map.
    apply map_ext. intros j. now rewrite Nat2Z.id.
  - unfold torch_where.
    apply (StronglySorted_map lt); [|apply filter_seq_sorted].
    intros a b _ _ Hab. lia.
  - intros g. unfold torch_where. rewrite in_map_iff. split.
    + intros (j & <- & Hj). apply filter_In in Hj. destruct Hj as [Hj Hmask].
      apply in_seq in Hj. apply np_isin_nth in Hmask.
      rewrite Nat2Z.id. split; [lia | apply Hmask].
    + intros [Hg Hin]. exists (Z.to_nat g). split; [lia|].
      apply filter_In. split; [apply in_seq; lia|].
      apply np_isin_nth. split; [lia | exact Hin].
Qed.

Lemma eligible_with_predicates_witness :
  exists filtered global,
    eligible true 3 [[1]; [2]; [3]]%Q (Some [7; 8; 7]%Z) (Some [[7]]%Z) 0
    = inr (filtered, global) /\
    filtered = map (train_row [[1]; [2]; [3]]%Q) global /\
    StronglySorted Z.lt global.
Proof.
  destruct (eligible_with_predicates 3 [[1]; [2]; [3]]%Q [7; 8; 7]%Z [[7]]%Z 0 eq_refl)
    as (filtered & global & Hrun & Hrows & Hsorted & _).
  exists filtered, global. repeat split; assumption.
Defined.

(** A group-id sequence whose length differs from the number of train
    vectors makes the mask indexing of line 30 raise. *)
Lemma eligible_mask_mismatch
    (n : nat) (train : list (list Q)) (tr : list Z) (te : list (list Z)) (i : nat) :
  length tr <> length train ->
  eligible true n train (Some tr) (Some te) i = inl IndexError_mask_shape.
Proof.
  intros Hne. unfold eligible, mask_select. rewrite np_isin_length.
  destruct (Nat.eqb_spec (length tr) (length train)); [contradiction | reflexivity].
Qed.

Lemma eligible_returns
    (n : nat) (train : list (list Q)) (tr : list Z) (te : list (list Z)) (i : nat) :
  length tr = length train ->
  eligible true n train (Some tr) (Some te) i
  = inr (map snd (filter fst (combine (np_isin tr (nth i te [])) train)),
         torch_where (np_isin tr (nth i te []))).
Proof.
  intros Hlen. unfold eligible, mask_select.
  now rewrite np_isin_length, Hlen, Nat.eqb_refl.
Qed.

(** ** Runs with predicates: which sizes return *)

Lemma replicateM_error {A : Type} (m : M A) (e : exn) :
  forall k s, replicateM k m s = inl e -> exists s0, m s0 = inl e.
Proof.
  induction k as [|k IH]; intros s H; simpl in H; [discriminate|].
  unfold bind in H. destruct (m s) as [e0 | [a s1]] eqn:Em.
  - inversion H; subst. now exists s.
  - destruct (replicateM k m s1) as [e1 | [l s2]] eqn:El; [|discriminate].
    inversion H; subst. now apply (IH s1).
Qed.


Lemma not_multiple_of_100 (n : nat) : n mod 100 <> 0 -> 100 * (n / 100) <> n.
Proof. intros H. pose proof (Nat.div_mod_eq n 100). lia. Qed.


Section PredicateRuns.

Variable bits : nat -> Z.

Lemma draw_distinct_total (size : nat) :
  forall pool s, exists l s', draw_distinct bits size pool s = inr (l, s').
Proof.
  induction size as [|size IH]; intros pool s; simpl.
  - eexists _, _. reflexivity.
  - unfold bind, next.
    destruct (IH (remove_nth (Z.to_nat (bits s mod Z.of_nat (length pool))) pool) (S s))
      as (l & s' & Hrun).
    rewrite Hrun. eexists _, _. reflexivity.
Qed.

Lemma draw_query_ids_errors (n s : nat) (e : exn) :
  draw_query_ids bits n s = inl e ->
  e = ValueError_choice_empty \/ e = ValueError_choice_too_large.
Proof.
  unfold draw_query_ids, bind. rewrite np_random_randint_run.
  unfold np_random_choice, raise.
  destruct (_ && _); [intros H; inversion H; now left|].
  destruct (_ <? _); [intros H; inversion H; now right|].
  intros H.
  destruct (draw_distinct_total (Z.to_nat (1 + bits s mod (6 - 1)))
              (np_arange 1 (Z.of_nat (n / 100) + 1)) (S s)) as (l & s' & Hrun).
  rewrite Hrun in H. discriminate.
Qed.

Lemma assign_ids_errors (n x s : nat) (e : exn) :
  assign_ids bits n x true s = inl e ->
  e = ValueError_choice_empty \/ e = ValueError_choice_too_large.
Proof.
  rewrite assign_ids_unfold. unfold bind.
  destruct (replicateM x (draw_query_ids bits n) s) as [e0 | [te s1]] eqn:Hte;
    [|discriminate].
  intros H. inversion H; subst.
  apply replicateM_error in Hte. destruct Hte as (s0 & Hs0).
  eapply draw_query_ids_errors, Hs0.
Qed.

End PredicateRuns.

(** X5: with predicates and at least one query, a train size that is not a
    multiple of 100 never yields a file: the run raises, either in the
    draw of a query's ids or, when all draws succeed, at the mask indexing
    of line 30 for the first query. *)
Theorem predicates_need_multiple_of_100
    (bits : nat -> Z) (n p x : nat) (f : string) (s : nat) :
  n mod 100 <> 0 -> 1 <= x ->
  exists e,
    generate_knn_dataset bits n p x f true s = inl e /\
    (e = IndexError_mask_shape \/ e = ValueError_choice_empty \/
     e = ValueError_choice_too_large).
Proof.
  intros Hn Hx.
  destruct (np_random_rand_f32_total bits n p s) as (train & s1 & Htrain).
  destruct (np_random_rand_f32_total bits x p s1) as (test & s2 & Htest).
  destruct (np_random_rand_f32_spec bits _ _ _ _ _ Htrain) as ([Hlen _] & _).
  destruct (assign_ids bits n x true s2) as [e | [ids s3]] eqn:Hids.
  - exists e. split.
    + eapply generate_knn_dataset_ids_error; eassumption.
    + right. eapply assign_ids_errors, Hids.
  - exists IndexError_mask_shape. split; [|now left].
    eapply generate_knn_dataset_knn_error; [exact Htrain | exact Htest | exact Hids |].
    apply assign_ids_inv in Hids. destruct Hids as (te & -> & _).
    cbn [fst snd]. destruct x as [|x']; [lia|].
    change (seq 0 (S x')) with (0 :: seq 1 x').
    apply knn_loop_first_error. unfold knn_query.
    rewrite eligible_mask_mismatch; [reflexivity|].
    rewrite train_ids_length, Hlen. now apply not_multiple_of_100.
Qed.

Lemma predicates_need_multiple_of_100_witness :
  250 mod 100 <> 0 /\ 1 <= 2 /\
  exists e,
    generate_knn_dataset (fun _ => 0%Z) 250 3 2 "out.hdf5" true 0 = inl e /\
    (e = IndexError_mask_shape \/ e = ValueError_choice_empty \/
     e = ValueError_choice_too_large).
Proof.
  assert (Hn : 250 mod 100 <> 0) by (vm_compute; lia).
  assert (Hx : 1 <= 2) by lia.
  split; [exact Hn | split; [exact Hx|]].
  exact (predicates_need_multiple_of_100 (fun _ => 0%Z) 250 3 2 "out.hdf5" 0 Hn Hx).
Defined.



(** ** The size of an eligible set *)

Lemma true_positions_length (l : list bool) :
  length (filter (fun i => nth i l false) (seq 0 (length l)))
  = length (filter (fun b => b) l).
Proof.
  induction l as [|b l IH]; [reflexivity|].
  change (seq 0 (length (b :: l))) with (0 :: seq 1 (length l)).
  cbn [filter]. change (nth 0 (b :: l) false) with b.
  assert (Hrest : filter (fun i => nth i (b :: l) false) (seq 1 (length l))
                  = map S (filter (fun i => nth i l false) (seq 0 (length l)))).
  { rewrite <- seq_shift, filter_map_comm. reflexivity. }
  rewrite Hrest. destruct b; cbn [length]; now rewrite length_map, IH.
Qed.

Lemma filter_repeat_length {A : Type} (f : A -> bool) (v : A) (k : nat) :
  length (filter f (repeat v k)) = if f v then k else 0.
Proof.
  induction k as [|k IH]; simpl; [now destruct (f v)|].
  destruct (f v); simpl; now rewrite IH.
Qed.

Lemma filter_np_repeat_length (f : Z -> bool) (k : nat) (a : list Z) :
  length (filter f (np_repeat a k)) = k * length (filter f a).
Proof.
  unfold np_repeat. induction a as [|v a IH]; cbn [flat_map]; [simpl; lia|].
  rewrite filter_app, length_app, IH, filter_repeat_length. simpl.
  destruct (f v); simpl; lia.
Qed.

Lemma filter_members_length (pool q : list Z) :
  NoDup pool -> NoDup q -> incl q pool ->
  length (filter (fun v => existsb (Z.eqb v) q) pool) = length q.
Proof.
  intros Hpool Hq Hincl. apply Permutation_length, NoDup_Permutation.
  - now apply NoDup_filter.
  - exact Hq.
  - intros g. rewrite filter_In, existsb_exists. split.
    + intros (_ & h & Hh & Heq). apply Z.eqb_eq in Heq. now subst.
    + intros Hg. split; [now apply Hincl|].
      exists g. split; [exact Hg | apply Z.eqb_refl].
Qed.

Lemma torch_where_isin_length (tr q : list Z) :
  length (torch_where (np_isin tr q))
  = length (filter (fun v => existsb (Z.eqb v) q) tr).
Proof.
  unfold torch_where, np_isin.
  now rewrite length_map, true_positions_length, filter_map_comm, length_map.
Qed.

(** X6: with predicates, for the ids the program assigns and a train
    matrix with one row per id, the eligible set of every query holds
    exactly 100 train vectors per id of the query's set: it is never
    empty and never smaller than the 100 neighbours asked for. *)
Theorem eligible_set_size
    (bits : nat -> Z) (n x s : nat) (tr : list Z) (te : list (list Z)) (s' : nat)
    (train : list (list Q)) (i : nat) :
  assign_ids bits n x true s = inr ((Some tr, Some te), s') ->
  length train = length tr -> i < x ->
  exists filtered global,
    eligible true n train (Some tr) (Some te) i = inr (filtered, global) /\
    length filtered = length global /\
    length global = 100 * length (nth i te []) /\
    100 <= length global.
Proof.
  intros Hids Hlen Hi.
  apply assign_ids_inv in Hids. destruct Hids as (te' & Heq & Hx & Hall).
  assert (Htr : tr = np_repeat (np_arange 1 (Z.of_nat (n / 100) + 1)) 100)
    by congruence.
  assert (Hte : te' = te) by congruence. subst te'. clear Heq.
  rewrite Forall_forall in Hall.
  assert (Hin : In (nth i te []) te) by (apply nth_In; lia).
  destruct (Hall _ Hin) as (Hq & Hnd & Hrange).
  rewrite eligible_returns by congruence.
  eexists _, _. split; [reflexivity|].
  assert (Hsize : length (torch_where (np_isin tr (nth i te [])))
                  = 100 * length (nth i te [])).
  { rewrite torch_where_isin_length, Htr, filter_np_repeat_length.
    rewrite filter_members_length; [reflexivity | apply np_arange_NoDup | exact Hnd |].
    intros g Hg. rewrite Forall_forall in Hrange. specialize (Hrange g Hg).
    apply np_arange_In. lia. }
  split; [|split; [exact Hsize | lia]].
  rewrite (mask_select_where [] _ train) by (rewrite np_isin_length; congruence).
  unfold torch_where. now rewrite !length_map.
Qed.

Lemma eligible_set_size_witness :
  exists tr te s' filtered global,
    assign_ids (fun _ => 6%Z) 300 2 true 0 = inr ((Some tr, Some te), s') /\
    eligible true 300 (repeat [] 300) (Some tr) (Some te) 1 = inr (filtered, global) /\
    length global = 100 * length (nth 1 te []).
Proof.
  eexists _, _, _.
  assert (Hi : 1 < 2) by lia.
  destruct (eligible_set_size (fun _ => 6%Z) 300 2 0 _ _ _ (repeat [] 300) 1
              ltac:(vm_compute; reflexivity) ltac:(vm_compute; reflexivity) Hi)
    as (filtered & global & Hrun & _ & Hsize & _).
  exists filtered, global. split; [vm_compute; reflexivity|].
  split; [exact Hrun | exact Hsize].
Defined.

(** ** The neighbors data set *)

Lemma neighbors_dataset_without_predicates_witness :
  100 <= 100 /\ 1 <= 2 /\ (Z.of_nat 100 <= 2 ^ 31)%Z /\
  exists r s' d,
    generate_knn_dataset (fun k => Z.of_nat k * 2 ^ 43)%Z 100 3 2 "out.hdf5" false 0
      = inr (r, s') /\
    dataset_named "neighbors" (h5f r) = Some d /\
    ds_shape d = [2; 100] /\
    ds_payload d = IntCells (neighbors_list r).
Proof.
  assert (Hn : 100 <= 100) by lia.
  assert (Hx : 1 <= 2) by lia.
  assert (H31 : (Z.of_nat 100 <= 2 ^ 31)%Z) by (vm_compute; discriminate).
  split; [exact Hn | split; [exact Hx | split; [exact H31|]]].
  destruct (neighbors_dataset_without_predicates
              (fun k => Z.of_nat k * 2 ^ 43)%Z 100 3 2 "out.hdf5" 0 Hn Hx H31)
    as (r & s' & d & Hrun & Hd & _ & Hshape & Hpayload).
  exists r, s', d. repeat split; assumption.
Defined.

(** ** The answer to the predicate prompt (line 65) *)

Lemma to_lower_is_y (c : ascii) :
  to_lower c = "y"%char <-> c = "y"%char \/ c = "Y"%char.
Proof.
  destruct c as [[] [] [] [] [] [] [] []]; vm_compute;
    split; try (intros H; discriminate H);
    try (intros [H | H]; discriminate H); auto.
Qed.

Lemma y_is_not_space (c : ascii) :
  c = "y"%char \/ c = "Y"%char -> is_space c = false.
Proof. intros [-> | ->]; reflexivity. Qed.

Lemma lstrip_spec (s : string) :
  exists pre, s = (pre ++ lstrip s)%string /\ all_space pre = true.
Proof.
  induction s as [|c s IH]; simpl.
  - exists EmptyString. split; reflexivity.
  - destruct (is_space c) eqn:Ec.
    + destruct IH as (pre & Hs & Hpre). exists (String c pre). split.
      * simpl. now rewrite <- Hs.
      * simpl. now rewrite Ec, Hpre.
    + exists EmptyString. split; reflexivity.
Qed.

Lemma rstrip_spec (s : string) :
  exists post, s = (rstrip s ++ post)%string /\ all_space post = true.
Proof.
  induction s as [|c s IH]; simpl.
  - exists EmptyString. split; reflexivity.
  - destruct IH as (post & Hs & Hpost).
    destruct (rstrip s) as [|c' t] eqn:Er.
    + simpl in Hs. subst post. destruct (is_space c) eqn:Ec.
      * exists (String c s). split; [reflexivity | simpl; now rewrite Ec, Hpost].
      * exists s. split; [reflexivity | exact Hpost].
    + exists post. split; [simpl; f_equal; exact Hs | exact Hpost].
Qed.

Lemma lstrip_spaces (pre s : string) :
  all_space pre = true -> lstrip (pre ++ s) = lstrip s.
Proof.
  induction pre as [|c pre IH]; simpl; [reflexivity|].
  intros H. apply andb_prop in H. destruct H as [Hc Hpre].
  rewrite Hc. now apply IH.
Qed.

Lemma rstrip_spaces (post : string) :
  all_space post = true -> rstrip post = EmptyString.
Proof.
  induction post as [|c post IH]; simpl; [reflexivity|].
  intros H. apply andb_prop in H. destruct H as [Hc Hpost].
  now rewrite (IH Hpost), Hc.
Qed.

Lemma str_lower_is_y (s : string) :
  str_lower s = "y"%string <->
  exists c, s = String c EmptyString /\ (c = "y"%char \/ c = "Y"%char).
Proof.
  split.
  - destruct s as [|c [|c' s]]; simpl; intros H; try discriminate.
    exists c. split; [reflexivity|]. apply to_lower_is_y. now inversion H.
  - intros (c & -> & Hc). simpl. apply to_lower_is_y in Hc. now rewrite Hc.
Qed.

(** X8: the flag is set exactly when the answer is a single y or Y with
    nothing but whitespace around it; any other answer, "yes" included,
    runs the generator without predicates. *)
Theorem read_use_predicates_iff (answer : string) :
  read_use_predicates answer = true <->
  exists pre c post,
    answer = (pre ++ String c post)%string /\
    all_space pre = true /\ all_space post = true /\
    (c = "y"%char \/ c = "Y"%char).
Proof.
  unfold read_use_predicates, str_strip. rewrite String.eqb_eq, str_lower_is_y.
  split.
  - intros (c & Hstrip & Hc).
    destruct (lstrip_spec answer) as (pre & Ha & Hpre).
    destruct (rstrip_spec (lstrip answer)) as (post & Hl & Hpost).
    exists pre, c, post. rewrite Hstrip in Hl. simpl in Hl.
    rewrite <- Hl. auto.
  - intros (pre & c & post & -> & Hpre & Hpost & Hc).
    exists c. split; [|exact Hc].
    rewrite lstrip_spaces by exact Hpre. simpl.
    rewrite (y_is_not_space c Hc). simpl.
    now rewrite (rstrip_spaces post Hpost), (y_is_not_space c Hc).
Qed.

(** ** The head of a neighbors row *)



(** ** The train and test data sets *)


